(** * cloudzip: the S3 range store, the WebDAV shim and the mount server

    A shallow embedding of three files of the repository:
    - [pkg/remote/s3.go]        (module [Remote]),
    - the WebDAV file-system shim of package [dav] (module [Dav]),
    - the [mount-server] command of package [cmd] (module [MountServer]),
    followed by the properties proved about them. *)

From Stdlib Require Import ZArith String Ascii List Bool Lia.
From Stdlib Require Import DecimalString DecimalPos DecimalZ DecimalFacts.
From stdpp Require Import base option list strings gmap.

Open Scope Z_scope.

(* ===================================================================== *)
(** * pkg/remote/s3.go *)
(* ===================================================================== *)

Module Remote.

(** ** Errors *)

(** A Go [error] value as this package sees it: an [awserr.Error] (it has a
    [Code()]), the package sentinel [ErrDoesNotExist], or any other error. *)
Inductive error : Type :=
| AwsError (code message : string)
| ErrDoesNotExist
| PlainError (message : string).

#[global] Instance remote_error_eq_dec : EqDecision error.
Proof. solve_decision. Defined.

(** A Go pair [(value, err)] with [err == nil] exactly on success. *)
Inductive result (A : Type) : Type :=
| Ok (a : A)
| Err (e : error).
Arguments Ok {A} a.
Arguments Err {A} e.

(** The [err] component of such a pair ([None] is [nil]). *)
Definition errOf {A} (r : result A) : option error :=
  match r with Ok _ => None | Err e => Some e end.

(** [s3.ErrCodeNoSuchBucket] and [s3.ErrCodeNoSuchKey]. *)
Definition ErrCodeNoSuchBucket : string := "NoSuchBucket".
Definition ErrCodeNoSuchKey : string := "NoSuchKey".

Definition s3IsNotFoundErr (err : option error) : bool :=
  match err with
  | None => false
  | Some (AwsError code _) =>
      if String.eqb code ErrCodeNoSuchBucket then true
      else if String.eqb code ErrCodeNoSuchKey then true
      else false
  | Some _ => false
  end.

(** ** Range expressions *)

(** Offsets are [int64]. No arithmetic is done on them, they are only
    compared with zero and printed, so they are carried as [Z].

    [fmt.Sprintf("%d", z)]: signed decimal, no padding. *)
Definition fmt_d (z : Z) : string := NilZero.string_of_int (Z.to_int z).

Definition buildRange (offsetStart offsetEnd : Z) : option string :=
  if negb (offsetStart =? 0) && negb (offsetEnd =? 0) then
    Some ("bytes=" +:+ fmt_d offsetStart +:+ "-" +:+ fmt_d offsetEnd)
  else if negb (offsetStart =? 0) then
    Some ("bytes=" +:+ fmt_d offsetStart +:+ "-")
  else if negb (offsetEnd =? 0) then
    Some ("bytes=-" +:+ fmt_d offsetEnd)
  else None.

(** The four request forms as the interface description lists them, and the
    expression each one stands for. *)
Inductive RangeForm : Type :=
| WholeObject
| FromOffset (start : Z)
| Inclusive (start stop : Z)
| Suffix (len : Z).

Definition render (f : RangeForm) : option string :=
  match f with
  | WholeObject => None
  | FromOffset s => Some ("bytes=" +:+ fmt_d s +:+ "-")
  | Inclusive s e => Some ("bytes=" +:+ fmt_d s +:+ "-" +:+ fmt_d e)
  | Suffix n => Some ("bytes=-" +:+ fmt_d n)
  end.

(** Which form the description assigns to a pair of bounds. *)
Definition documentedForm (offsetStart offsetEnd : Z) : RangeForm :=
  match Z.eq_dec offsetStart 0, Z.eq_dec offsetEnd 0 with
  | left _, left _ => WholeObject
  | right _, left _ => FromOffset offsetStart
  | right _, right _ => Inclusive offsetStart offsetEnd
  | left _, right _ => Suffix offsetEnd
  end.

(** ** Clients, requests and the outside world *)

(** An S3 client, [s3.New(sess, aws.NewConfig().WithRegion(region))]: what
    tells two clients apart is the region they were configured with. *)
Record S3API : Type := s3_New { svc_region : string }.

#[global] Instance S3API_eq_dec : EqDecision S3API.
Proof. solve_decision. Defined.

Definition defaultRegion : string := "us-east-1".

Record s3ParsedUri : Type := { Bucket : string; Path : string }.

(** The fields of [url.URL] that [parseUri] reads. *)
Record URL : Type := { Host : string; UrlPath : string }.

Record GetObjectInput : Type :=
  { goi_Bucket : string; goi_Key : string; goi_Range : option string }.

Record GetObjectOutput : Type := { Body : string }.

Record HeadObjectInput : Type := { hoi_Bucket : string; hoi_Key : string }.

(** [ContentLength] is a [*int64]; [None] is the nil pointer. *)
Record HeadObjectOutput : Type := { ContentLength : option Z }.

(** [aws.Int64Value]. *)
Definition Int64Value (p : option Z) : Z := default 0 p.

(** What the code calls outside this file: [net/url] and the AWS SDK. Each
    answer is a function of the request; a later call may be run against a
    different [SDK] value, which is how a changed world is expressed. *)
Record SDK : Type :=
  { url_Parse : string -> result URL;
    GetBucketRegionWithClient : S3API -> string -> result string;
    GetObjectWithContext : S3API -> GetObjectInput -> result GetObjectOutput;
    HeadObjectWithContext : S3API -> HeadObjectInput -> result HeadObjectOutput }.

(** What a call does that another goroutine or the backend can observe. *)
Inductive event : Type :=
| EvLock
| EvUnlock
| EvGetBucketRegion (bucket : string) (answer : result string)
| EvGetObject (svc : S3API) (input : GetObjectInput)
| EvHeadObject (svc : S3API) (input : HeadObjectInput).

(** ** The monad of a method of [S3Downloader]

    A method reads and writes [d.serviceCache], may return an error, and
    leaves a log of events. *)
Definition M (A : Type) : Type :=
  gmap string S3API -> result A * gmap string S3API * list event.

Definition ret {A} (a : A) : M A := fun c => (Ok a, c, []).
Definition fail {A} (e : error) : M A := fun c => (Err e, c, []).
Definition emit (ev : event) : M unit := fun c => (Ok tt, c, [ev]).
Definition lift {A} (r : result A) : M A := fun c => (r, c, []).

Definition bind {A B} (m : M A) (k : A -> M B) : M B :=
  fun c =>
    match m c with
    | (Ok a, c1, l1) =>
        match k a c1 with (r, c2, l2) => (r, c2, l1 ++ l2) end
    | (Err e, c1, l1) => (Err e, c1, l1)
    end.

Notation "'let*' x ':=' m 'in' k" := (bind m (fun x => k))
  (at level 10, x name, m at level 100, k at level 200).
Notation "'do' m 'then' k" := (bind m (fun _ => k))
  (at level 10, m at level 100, k at level 200).

(** [d.lock.Lock(); defer d.lock.Unlock()] around a body: the unlock runs
    on every return path. *)
Definition withLock {A} (body : M A) : M A :=
  fun c =>
    match body c with
    | (r, c1, l) => (r, c1, EvLock :: l ++ [EvUnlock])
    end.

Definition NewS3Downloader : gmap string S3API := ∅.

Section Methods.
Variable sdk : SDK.

Definition getServiceForBucket (bucket : string) : M S3API :=
  withLock (fun c =>
    match c !! bucket with
    | Some svc => (Ok svc, c, [])
    | None =>
        let svc := s3_New defaultRegion in
        let answer := GetBucketRegionWithClient sdk svc bucket in
        match answer with
        | Err e => (Err e, c, [EvGetBucketRegion bucket answer])
        | Ok region =>
            let svc := s3_New region in
            (Ok svc, <[bucket := svc]> c, [EvGetBucketRegion bucket answer])
        end
    end).

Definition parseUri (uri : string) : result s3ParsedUri :=
  match url_Parse sdk uri with
  | Err e => Err e
  | Ok parsed => Ok {| Bucket := Host parsed; Path := UrlPath parsed |}
  end.

Definition Download (uri : string) (offsetStart offsetEnd : Z) : M string :=
  let* parsed := lift (parseUri uri) in
  let* svc := getServiceForBucket (Bucket parsed) in
  let rng := buildRange offsetStart offsetEnd in
  let input := {| goi_Bucket := Bucket parsed; goi_Key := Path parsed;
                  goi_Range := rng |} in
  do emit (EvGetObject svc input) then
  let answer := GetObjectWithContext sdk svc input in
  if s3IsNotFoundErr (errOf answer) then fail ErrDoesNotExist
  else match answer with
       | Err e => fail e
       | Ok out => ret (Body out)
       end.

Definition SizeOf (uri : string) : M Z :=
  let* parsed := lift (parseUri uri) in
  let* svc := getServiceForBucket (Bucket parsed) in
  let input := {| hoi_Bucket := Bucket parsed; hoi_Key := Path parsed |} in
  do emit (EvHeadObject svc input) then
  let answer := HeadObjectWithContext sdk svc input in
  if s3IsNotFoundErr (errOf answer) then fail ErrDoesNotExist
  else match answer with
       | Err e => fail e
       | Ok out => ret (Int64Value (ContentLength out))
       end.
End Methods.

(** ** Goroutines calling [getServiceForBucket] concurrently

    The same function, one program point per statement that another
    goroutine can observe. [d.lock] is a [sync.Mutex]: [Lock] waits while
    somebody holds it. *)
Inductive pc : Type :=
| AtLock (bucket : string)           (* about to run [d.lock.Lock()] *)
| AtLookup (bucket : string)         (* holds the lock, about to read the cache *)
| AtRegion (bucket : string)         (* [GetBucketRegionWithClient] in flight *)
| AtStore (bucket region : string)   (* region known, about to write the cache *)
| Returned (r : result S3API).       (* returned; the deferred [Unlock] has run *)

Record state : Type :=
  { holder : option nat;
    serviceCache : gmap string S3API;
    goroutines : list pc }.

Definition holdsLock (p : pc) : bool :=
  match p with
  | AtLookup _ | AtRegion _ | AtStore _ _ => true
  | AtLock _ | Returned _ => false
  end.

(** One step of goroutine [i]; [None] when it cannot move (it waits for the
    lock, has returned, or does not exist). *)
Definition step (sdk : SDK) (i : nat) (st : state) : option state :=
  match goroutines st !! i with
  | Some (AtLock b) =>
      match holder st with
      | None =>
          Some {| holder := Some i; serviceCache := serviceCache st;
                  goroutines := <[i := AtLookup b]> (goroutines st) |}
      | Some _ => None
      end
  | Some (AtLookup b) =>
      match serviceCache st !! b with
      | Some svc =>
          Some {| holder := None; serviceCache := serviceCache st;
                  goroutines := <[i := Returned (Ok svc)]> (goroutines st) |}
      | None =>
          Some {| holder := holder st; serviceCache := serviceCache st;
                  goroutines := <[i := AtRegion b]> (goroutines st) |}
      end
  | Some (AtRegion b) =>
      match GetBucketRegionWithClient sdk (s3_New defaultRegion) b with
      | Err e =>
          Some {| holder := None; serviceCache := serviceCache st;
                  goroutines := <[i := Returned (Err e)]> (goroutines st) |}
      | Ok region =>
          Some {| holder := holder st; serviceCache := serviceCache st;
                  goroutines := <[i := AtStore b region]> (goroutines st) |}
      end
  | Some (AtStore b region) =>
      Some {| holder := None;
              serviceCache := <[b := s3_New region]> (serviceCache st);
              goroutines := <[i := Returned (Ok (s3_New region))]> (goroutines st) |}
  | Some (Returned _) | None => None
  end.

(** A schedule names the goroutine to run next; a goroutine that cannot
    move when its turn comes leaves the state as it is. *)
Definition exec (sdk : SDK) (sched : list nat) (st : state) : state :=
  foldl (fun st i => default st (step sdk i st)) st sched.

(** One call per bucket of [buckets], none of them started yet. *)
Definition calls (c : gmap string S3API) (buckets : list string) : state :=
  {| holder := None; serviceCache := c; goroutines := AtLock <$> buckets |}.

(** Goroutine [i] is stuck in [Lock] behind another holder. *)
Definition blocked (sdk : SDK) (i : nat) (st : state) : Prop :=
  (exists b, goroutines st !! i = Some (AtLock b)) /\ step sdk i st = None.

(** ** Histories of one downloader *)

(** The cache and the accumulated log after any sequence of calls on a
    downloader made by [NewS3Downloader], each call against the world as it
    is at that time. *)
Inductive history : gmap string S3API -> list event -> Prop :=
| history_new : history NewS3Downloader []
| history_getService sdk bucket c h r c' l :
    history c h -> getServiceForBucket sdk bucket c = (r, c', l) ->
    history c' (h ++ l)
| history_Download sdk uri s e c h r c' l :
    history c h -> Download sdk uri s e c = (r, c', l) ->
    history c' (h ++ l)
| history_SizeOf sdk uri c h r c' l :
    history c h -> SizeOf sdk uri c = (r, c', l) ->
    history c' (h ++ l).

(** What both methods do with the answer of the object request. *)
Definition mapNotFound {A} (answer : result A) : result A :=
  match answer with
  | Err e => if s3IsNotFoundErr (Some e) then Err ErrDoesNotExist else Err e
  | Ok a => Ok a
  end.

(** ** Reading a log *)

(** The requests a log sends to [GetObject]. *)
Definition getObjectInputs (l : list event) : list GetObjectInput :=
  omap (fun ev => match ev with EvGetObject _ i => Some i | _ => None end) l.


(** Whoever is past [Lock] and has not returned is the holder. *)
Definition lockInv (st : state) : Prop :=
  forall i p, goroutines st !! i = Some p -> holdsLock p = true -> holder st = Some i.

(** The regions that successful lookups in a log returned for [bucket]. *)
Definition resolutions (bucket : string) (l : list event) : list string :=
  omap (fun ev =>
          match ev with
          | EvGetBucketRegion b (Ok region) =>
              if decide (b = bucket) then Some region else None
          | _ => None
          end) l.




(** The steps a goroutine at [p] has left at most. *)
Definition stepsLeft (p : pc) : nat :=
  match p with
  | AtLock _ => 4
  | AtLookup _ => 3
  | AtRegion _ => 2
  | AtStore _ _ => 1
  | Returned _ => 0
  end.

Definition remaining (st : state) : nat :=
  foldr (fun p n => (stepsLeft p + n)%nat) 0%nat (goroutines st).


(** What a call may do to the cache entry of [b] and to the successful
    lookups of [b]: an entry is kept, and a new entry comes with exactly one
    successful lookup. *)
Definition routeStep (c c' : gmap string S3API) (l : list event) (b : string) : Prop :=
  match c !! b, c' !! b with
  | Some svc, Some svc' => svc' = svc /\ resolutions b l = []
  | None, Some svc' => resolutions b l = [svc_region svc']
  | None, None => resolutions b l = []
  | Some _, None => False
  end.

(** The number of picks of a schedule at which the goroutine moved. *)
Fixpoint moves (sdk : SDK) (sched : list nat) (st : state) : nat :=
  match sched with
  | [] => 0
  | i :: sched' =>
      match step sdk i st with
      | Some st' => S (moves sdk sched' st')
      | None => moves sdk sched' st
      end
  end.

(** The backend does not hand out the sentinel of this package. *)
Definition foreign (sdk : SDK) : Prop :=
  (forall uri, url_Parse sdk uri <> Err ErrDoesNotExist)
  /\ (forall svc b, GetBucketRegionWithClient sdk svc b <> Err ErrDoesNotExist)
  /\ (forall svc i, GetObjectWithContext sdk svc i <> Err ErrDoesNotExist)
  /\ (forall svc i, HeadObjectWithContext sdk svc i <> Err ErrDoesNotExist).

(** The two codes [s3IsNotFoundErr] looks for. *)
Definition notFoundCode (code : string) : Prop :=
  code = ErrCodeNoSuchBucket \/ code = ErrCodeNoSuchKey.

(** The characters ['0'] to ['9']. *)
Definition isDigit (a : ascii) : bool :=
  let n := nat_of_ascii a in (48 <=? n)%nat && (n <=? 57)%nat.

Fixpoint allDigits (s : string) : bool :=
  match s with
  | EmptyString => true
  | String a s' => isDigit a && allDigits s'
  end.

(** ** A world for examples *)

Definition parseS3 (uri : string) : result URL :=
  if String.eqb uri "s3://archives/big.zip" then
    Ok {| Host := "archives"; UrlPath := "/big.zip" |}
  else if String.eqb uri "s3://no-such-bucket/big.zip" then
    Ok {| Host := "no-such-bucket"; UrlPath := "/big.zip" |}
  else Err (PlainError "parse error").

(** A world where the bucket [archives] lives in [eu-west-1] and holds
    [big.zip]; every other bucket is reported missing. *)
Definition world : SDK :=
  {| url_Parse := parseS3;
     GetBucketRegionWithClient := fun _ bucket =>
       if String.eqb bucket "archives" then Ok "eu-west-1"%string
       else Err (AwsError ErrCodeNoSuchBucket "The specified bucket does not exist");
     GetObjectWithContext := fun _ input =>
       if String.eqb (goi_Bucket input) "archives" then
         if String.eqb (goi_Key input) "/big.zip" then Ok {| Body := "PK" |}
         else Err (AwsError ErrCodeNoSuchKey "The specified key does not exist.")
       else Err (AwsError ErrCodeNoSuchBucket "The specified bucket does not exist");
     HeadObjectWithContext := fun _ input =>
       if String.eqb (hoi_Bucket input) "archives" then
         if String.eqb (hoi_Key input) "/big.zip" then Ok {| ContentLength := Some 500 |}
         else Err (AwsError ErrCodeNoSuchKey "The specified key does not exist.")
       else Err (AwsError ErrCodeNoSuchBucket "The specified bucket does not exist") |}.

End Remote.

(* ===================================================================== *)
(** * Package dav: the WebDAV file-system shim *)
(* ===================================================================== *)

Module Dav.

(** ** Errors of package [os] *)

(** The sentinel errors of package [os], a [syscall.Errno], or any other
    error (one that a [Tree] returns, say). *)
Inductive error : Type :=
| ErrInvalid
| ErrPermission
| ErrExist
| ErrNotExist
| ErrClosed
| Errno (n : Z)
| OtherError (msg : string).

#[global] Instance os_error_eq_dec : EqDecision error.
Proof. solve_decision. Defined.

Definition EPERM : Z := 1.
Definition EACCES : Z := 13.

(** [os.IsPermission]: the "permission denied / operation not permitted"
    condition. *)
Definition IsPermission (e : error) : bool :=
  match e with
  | ErrPermission => true
  | Errno n => (n =? EPERM) || (n =? EACCES)
  | _ => false
  end.

Inductive result (A : Type) : Type :=
| Ok (a : A)
| Err (e : error).
Arguments Ok {A} a.
Arguments Err {A} e.

Definition isOk {A} (r : result A) : bool :=
  match r with Ok _ => true | Err _ => false end.

(** ** Flags of [os.OpenFile] *)

Definition O_RDONLY : Z := 0.
Definition O_WRONLY : Z := 1.
Definition O_RDWR : Z := 2.

(** The access mode is the low two bits of the flag word. *)
Definition requestsRead (flag : Z) : bool :=
  let mode := Z.land flag 3 in (mode =? O_RDONLY) || (mode =? O_RDWR).

(** ** The tree *)

(** What [os.FileInfo] reports about an archive entry. *)
Record FileInfo : Type :=
  { fi_Name : string; fi_Size : Z; fi_ModTime : Z; fi_IsDir : bool }.

(** Modelled from the spec: the [index.Tree] interface, which is declared
    outside these files. [Tree.Stat] resolves a path to its entry;
    [Tree.Open] gives the content of a file entry and fails on a directory.
    [W] is whatever the tree and its cache keep as state; every method
    threads it. *)
Record Tree (W : Type) : Type :=
  { Tree_Stat : string -> W -> result FileInfo * W;
    Tree_Open : string -> W -> result string * W }.
Arguments Tree_Stat {W} t name w.
Arguments Tree_Open {W} t name w.

Section Shim.
Context {W : Type}.

Record davFS : Type := NewDavFS { tree : Tree W }.

(** The handle [OpenFile] returns; its methods are declared outside
    these files, its two fields are set here. *)
Record treeFile : Type := { tf_tree : Tree W; tf_fi : FileInfo }.

Definition Mkdir (fs : davFS) (name : string) (perm : Z) (w : W)
  : option error * W :=
  (Some ErrInvalid, w).

Definition OpenFile (fs : davFS) (name : string) (flag : Z) (perm : Z) (w : W)
  : result treeFile * W :=
  match Tree_Stat (tree fs) name w with
  | (Err err, w1) => (Err err, w1)
  | (Ok f, w1) => (Ok {| tf_tree := tree fs; tf_fi := f |}, w1)
  end.

Definition RemoveAll (fs : davFS) (name : string) (w : W)
  : option error * W :=
  (Some ErrInvalid, w).

Definition Rename (fs : davFS) (oldName newName : string) (w : W)
  : option error * W :=
  (Some ErrInvalid, w).

Definition Stat (fs : davFS) (name : string) (w : W)
  : result FileInfo * W :=
  Tree_Stat (tree fs) name w.

(** [OpenFile] as the adapter's description words it, for flags that ask
    for read access: hand the path to [Tree.Open]; the handle reports the
    entry's size and modification time. *)
Definition OpenFile_described (fs : davFS) (name : string) (flag : Z)
    (perm : Z) (w : W) : result treeFile * W :=
  match Tree_Open (tree fs) name w with
  | (Err err, w1) => (Err err, w1)
  | (Ok _, w1) =>
      match Tree_Stat (tree fs) name w1 with
      | (Err err, w2) => (Err err, w2)
      | (Ok f, w2) => (Ok {| tf_tree := tree fs; tf_fi := f |}, w2)
      end
  end.
End Shim.
Arguments davFS W : clear implicits.
Arguments treeFile W : clear implicits.

(** ** A small tree for examples

    An archive holding [a/b.txt] (12 bytes) and the empty directory [a/c/].
    The state is the list of paths whose content the cache holds;
    [Tree.Open] of a file fills it. *)
Definition entries : list (string * FileInfo) :=
  [ ("/a"%string, {| fi_Name := "a"; fi_Size := 0; fi_ModTime := 1700000000; fi_IsDir := true |});
    ("/a/b.txt"%string, {| fi_Name := "b.txt"; fi_Size := 12; fi_ModTime := 1700000001; fi_IsDir := false |});
    ("/a/c"%string, {| fi_Name := "c"; fi_Size := 0; fi_ModTime := 1700000002; fi_IsDir := true |}) ].

Fixpoint find (name : string) (l : list (string * FileInfo)) : option FileInfo :=
  match l with
  | [] => None
  | (p, f) :: l' => if String.eqb p name then Some f else find name l'
  end.

Definition exampleTree : Tree (list string) :=
  {| Tree_Stat := fun name w =>
       match find name entries with
       | Some f => (Ok f, w)
       | None => (Err ErrNotExist, w)
       end;
     Tree_Open := fun name w =>
       match find name entries with
       | Some f =>
           if fi_IsDir f then (Err (OtherError "is a directory"), w)
           else (Ok "hello, world"%string, name :: w)
       | None => (Err ErrNotExist, w)
       end |}.

(** ** Requests that would change the archive *)

Inductive mutation : Type :=
| DoMkdir (name : string) (perm : Z)
| DoRemoveAll (name : string)
| DoRename (oldName newName : string).

Definition mutate {W} (fs : davFS W) (m : mutation) (w : W) : option error * W :=
  match m with
  | DoMkdir name perm => Mkdir fs name perm w
  | DoRemoveAll name => RemoveAll fs name w
  | DoRename oldName newName => Rename fs oldName newName w
  end.

(** The requests of [ms] one after the other, each on the state the one
    before left. *)
Fixpoint mutateAll {W} (fs : davFS W) (ms : list mutation) (w : W)
  : list (option error) * W :=
  match ms with
  | [] => ([], w)
  | m :: ms' =>
      let (err, w1) := mutate fs m w in
      let (errs, w2) := mutateAll fs ms' w1 in
      (err :: errs, w2)
  end.

End Dav.

(* ===================================================================== *)
(** * Package cmd: the mount-server command *)
(* ===================================================================== *)

Module MountServer.

(** An error is carried as its [Error()] text, which is all the command
    does with one (it formats it with [%v]). *)
Inductive result (A : Type) : Type :=
| Ok (a : A)
| Err (err : string).
Arguments Ok {A} a.
Arguments Err {A} err.

Inductive mountServerStatus : Type :=
| mountServerStatusSuccess
| mountServerStatusError.

(** Modelled from the spec: the text of the two status constants, which are
    declared outside these files; the callback protocol names the statuses
    success and error. *)
Definition statusText (s : mountServerStatus) : string :=
  match s with
  | mountServerStatusSuccess => "success"
  | mountServerStatusError => "error"
  end.

Definition newline : string := String (ascii_of_nat 10) EmptyString.

(** The values of the command's flags and its one argument. Every flag is
    registered as a string flag by [init], so reading one never fails. *)
Record Flags : Type :=
  { cacheDir : string;
    listenAddr : string;
    callbackAddr : string;
    logFile : string;
    protocol : string;
    remoteFile : string }.

(** The values [Run] hands to the index builder besides the cache
    directory and the archive ([version] is a constant of the package). *)
Record BuildInfo : Type :=
  { listen_addr : string; info_protocol : string; logfile : string }.

(** The answers of everything the command calls: the operating system, the
    network, the index builder. *)
Record Env : Type :=
  { OpenFile : string -> option string;        (* opening the log file *)
    Getenv_CLOUDZIP_CACHE_DIR : string;
    generatedCacheDir : string;                (* TempDir/cz-mount-cache/uuid *)
    isDir : string -> result bool;
    MkdirAll : string -> option string;
    Listen : string -> result string;          (* the bound address *)
    BuildZipTree : string -> string -> BuildInfo -> option string;
    Dial : string -> option string;
    Fprintf : string -> string -> option string;
    Close : string -> option string;
    interrupted : bool;                        (* is the context ever cancelled *)
    RemoveAll : string -> option string }.

Inductive adapter : Type := NFS | WebDAV.

Inductive event : Type :=
| EvOpenLog (path : string)
| EvMkdirAll (dir : string)
| EvListen (addr : string) (bound : result string)
| EvBuildZipTree (dir remote : string) (info : BuildInfo) (failure : option string)
| EvGo (a : adapter) (boundAddr : string)     (* the adapter's goroutine starts *)
| EvDial (addr : string) (failure : option string)
| EvWrite (addr line : string) (failure : option string)
| EvClose (addr : string)
| EvStarted (boundAddr : string)              (* "mount server started successfully" *)
| EvDone                                      (* [<-ctx.Done()] returned *)
| EvRemoveAll (dir : string) (failure : option string)
| EvStderr (msg : string)
| EvExit (code : Z).

(** How a piece of the command ends: it goes on with a value, the process
    has exited, or it waits forever. *)
Inductive outcome (A : Type) : Type :=
| Continue (a : A)
| Exited
| Waiting.
Arguments Continue {A} a.
Arguments Exited {A}.
Arguments Waiting {A}.

Definition P (A : Type) : Type := list event * outcome A.

Definition ret {A} (a : A) : P A := ([], Continue a).
Definition emit (ev : event) : P unit := ([ev], Continue tt).

Definition bind {A B} (m : P A) (k : A -> P B) : P B :=
  match m with
  | (tr, Continue a) => let (tr', o) := k a in (tr ++ tr', o)
  | (tr, Exited) => (tr, Exited)
  | (tr, Waiting) => (tr, Waiting)
  end.

Notation "'let*' x ':=' m 'in' k" := (bind m (fun x => k))
  (at level 10, x name, m at level 100, k at level 200).
Notation "'do' m 'then' k" := (bind m (fun _ => k))
  (at level 10, m at level 100, k at level 200).

(** Modelled from the spec: [die], which is declared outside these files.
    A fatal error is printed and the process exits non-zero; nothing runs
    after it, deferred calls included. *)
Definition die {A} (msg : string) : P A := ([EvStderr msg; EvExit 1], Exited).

Section Command.
Variable env : Env.

Definition sendCallback (toAddr : string) (className : mountServerStatus)
    (msg : string) : P (option string) :=
  match Dial env toAddr with
  | Some err => ([EvDial toAddr (Some err)], Continue (Some err))
  | None =>
      let line := statusText className +:+ "=" +:+ msg +:+ newline in
      match Fprintf env toAddr line with
      | Some err =>
          ([EvDial toAddr None; EvWrite toAddr line (Some err)],
           Continue (Some err))
      | None =>
          ([EvDial toAddr None; EvWrite toAddr line None; EvClose toAddr],
           Continue (Close env toAddr))
      end
  end.

(** [errMessage] is the caller's format string already applied to its
    arguments. *)
Definition dieWithCallback {A} (toAddr errMessage : string) : P A :=
  let* err := (if String.eqb toAddr "" then ret None
               else sendCallback toAddr mountServerStatusError errMessage) in
  let errMessage :=
    match err with
    | Some e =>
        errMessage +:+ " (could not notify callback address " +:+ toAddr
                   +:+ ": " +:+ e +:+ ")"
    | None => errMessage
    end in
  die errMessage.

Definition serverLogging (logFile : string) : P (result unit) :=
  if String.eqb logFile "" then ret (Ok tt)
  else
    do emit (EvOpenLog logFile) then
    match OpenFile env logFile with
    | Some err => ret (Err err)
    | None => ret (Ok tt)
    end.

(** What the adapter's goroutine does once [Serve] has returned [err]. *)
Definition serveReturned (f : Flags) (a : adapter) (boundAddr : string)
    (err : option string) : P unit :=
  match err with
  | None => ret tt
  | Some e =>
      dieWithCallback (callbackAddr f)
        (match a with
         | NFS => "could not serve NFS server on listener: "
         | WebDAV => "could not serve WebDav server on listener: "
         end +:+ boundAddr +:+ ": " +:+ e +:+ newline)
  end.

Definition Run (f : Flags) : P unit :=
  (* setup logging *)
  let* logger := serverLogging (logFile f) in
  do (match logger with
      | Err err =>
          dieWithCallback (callbackAddr f)
            ("could not open log file " +:+ logFile f +:+ ": " +:+ err +:+ newline)
      | Ok _ => ret tt
      end) then
  (* handle cache dir *)
  let cacheDir :=
    if String.eqb (cacheDir f) "" then Getenv_CLOUDZIP_CACHE_DIR env
    else cacheDir f in
  let generated := String.eqb cacheDir "" in
  let cacheDir := if generated then generatedCacheDir env else cacheDir in
  let* dirExists :=
    (match isDir env cacheDir with
     | Err err =>
         dieWithCallback (callbackAddr f)
           ("could not check if cache directory '" +:+ cacheDir
            +:+ "' exists: " +:+ err +:+ newline)
     | Ok b => ret b
     end) in
  do (if dirExists then ret tt
      else
        let failure := MkdirAll env cacheDir in
        do emit (EvMkdirAll cacheDir) then
        match failure with
        | Some err =>
            dieWithCallback (callbackAddr f)
              ("could not create local cache directory: " +:+ err +:+ newline)
        | None => ret tt
        end) then
  (* bind to listen address *)
  let bound := Listen env (listenAddr f) in
  do emit (EvListen (listenAddr f) bound) then
  let* boundAddr :=
    (match bound with
     | Err err =>
         dieWithCallback (callbackAddr f)
           ("could not listen on " +:+ listenAddr f +:+ ": " +:+ err +:+ newline)
     | Ok addr => ret addr
     end) in
  (* build index for remote archive *)
  let info := {| listen_addr := boundAddr; info_protocol := protocol f;
                 logfile := logFile f |} in
  let failure := BuildZipTree env cacheDir (remoteFile f) info in
  do emit (EvBuildZipTree cacheDir (remoteFile f) info failure) then
  do (match failure with
      | Some err =>
          dieWithCallback (callbackAddr f)
            ("could not create filesystem: " +:+ err +:+ newline)
      | None => ret tt
      end) then
  do (if String.eqb (protocol f) "nfs" then emit (EvGo NFS boundAddr)
      else if String.eqb (protocol f) "webdav" then emit (EvGo WebDAV boundAddr)
      else
        dieWithCallback (callbackAddr f)
          ("unknown protocol: '" +:+ protocol f
           +:+ "'. Supported types are 'nfs' and 'webdav'")) then
  do (if String.eqb (callbackAddr f) "" then ret tt
      else
        let* err := sendCallback (callbackAddr f) mountServerStatusSuccess boundAddr in
        match err with
        | Some e =>
            die ("could not send listen address back to caller: " +:+ e +:+ newline)
        | None => ret tt
        end) then
  do emit (EvStarted boundAddr) then
  do (if interrupted env then emit EvDone else ([], Waiting)) then
  (* deferred calls, last registered first: [cancelFn], then the removal
     of a generated cache directory *)
  if generated then
    let failure := RemoveAll env cacheDir in
    do emit (EvRemoveAll cacheDir failure) then
    match failure with
    | Some err =>
        dieWithCallback (callbackAddr f)
          ("could not clear cache dir at " +:+ cacheDir +:+ ": " +:+ err +:+ newline)
    | None => ret tt
    end
  else ret tt.
End Command.

(** ** Reading a trace *)

(** The lines that reached the callback address, in order. *)
Definition delivered (tr : list event) : list string :=
  omap (fun ev => match ev with EvWrite _ line None => Some line | _ => None end) tr.

(** The connections opened (or attempted) to the callback address. *)
Definition dialled (tr : list event) : list string :=
  omap (fun ev => match ev with EvDial addr _ => Some addr | _ => None end) tr.

(** The adapters started. *)
Definition started (tr : list event) : list adapter :=
  omap (fun ev => match ev with EvGo a _ => Some a | _ => None end) tr.





(** Every event of kind [isB] comes after some event of kind [isA];
    [seenA] tells whether one has been seen already. *)
Fixpoint eachAfter (isA isB : event -> bool) (seenA : bool) (tr : list event) : bool :=
  match tr with
  | [] => true
  | ev :: tr' =>
      (if isB ev then seenA else true) && eachAfter isA isB (seenA || isA ev) tr'
  end.

(** The line [sendCallback] writes. *)
Definition callbackLine (s : mountServerStatus) (msg : string) : string :=
  statusText s +:+ "=" +:+ msg +:+ newline.

(** The callback events of a trace come in sessions, one per connection:
    a dial that fails; or a dial, then a write that fails; or a dial, one
    write, and the close. *)
Fixpoint sessions (tr : list event) : bool :=
  match tr with
  | [] => true
  | EvDial _ (Some _) :: tr' => sessions tr'
  | EvDial a None :: EvWrite a1 _ (Some _) :: tr' => String.eqb a a1 && sessions tr'
  | EvDial a None :: EvWrite a1 _ None :: EvClose a2 :: tr' =>
      String.eqb a a1 && String.eqb a a2 && sessions tr'
  | EvDial _ None :: _ => false
  | EvWrite _ _ _ :: _ => false
  | EvClose _ :: _ => false
  | _ :: tr' => sessions tr'
  end.

(** What was printed on standard error. *)
Definition stderrs (tr : list event) : list string :=
  omap (fun ev => match ev with EvStderr msg => Some msg | _ => None end) tr.


Definition isErrorLine (line : string) : Prop :=
  exists msg, line = callbackLine mountServerStatusError msg.



(** [Q] holds of the trace and the outcome of [m]. *)
Definition sat {A} (m : P A) (Q : list event -> outcome A -> Prop) : Prop :=
  Q m.1 m.2.


(** ** Environments and flags for examples *)

(** Nothing is configured for the cache, no directory exists yet, the
    listener gets port 40001, the callback address takes the message, and
    the interrupt arrives; the index build and the removal of the cache
    directory end as given. *)
Definition exampleEnv (build remove : option string) : Env :=
  {| OpenFile := fun _ => None;
     Getenv_CLOUDZIP_CACHE_DIR := "";
     generatedCacheDir := "/tmp/cz-mount-cache/0192f0c1";
     isDir := fun _ => Ok false;
     MkdirAll := fun _ => None;
     Listen := fun _ => Ok "127.0.0.1:40001"%string;
     BuildZipTree := fun _ _ _ => build;
     Dial := fun _ => None;
     Fprintf := fun _ _ => None;
     Close := fun _ => None;
     interrupted := true;
     RemoveAll := fun _ => remove |}.

Definition exampleFlags (proto : string) : Flags :=
  {| cacheDir := "";
     listenAddr := "127.0.0.1:0";
     callbackAddr := "127.0.0.1:5000";
     logFile := "";
     protocol := proto;
     remoteFile := "s3://archives/big.zip" |}.

(** ** The cache directory and the stages of a run *)

(** The cache directory as configured: the flag, or else the environment
    variable; empty when neither is set. *)
Definition configuredCacheDir (env : Env) (f : Flags) : string :=
  if String.eqb (cacheDir f) "" then Getenv_CLOUDZIP_CACHE_DIR env else cacheDir f.

(** The directory [Run] works with. *)
Definition effectiveCacheDir (env : Env) (f : Flags) : string :=
  if String.eqb (configuredCacheDir env f) "" then generatedCacheDir env
  else configuredCacheDir env f.

(** The directories a trace creates, indexes into or removes. *)
Definition dirsUsed (tr : list event) : list string :=
  omap (fun ev =>
          match ev with
          | EvMkdirAll d | EvBuildZipTree d _ _ _ | EvRemoveAll d _ => Some d
          | _ => None
          end) tr.

(** The directories a trace removes. *)
Definition removals (tr : list event) : list string :=
  omap (fun ev => match ev with EvRemoveAll d _ => Some d | _ => None end) tr.

Definition isDone (ev : event) : bool :=
  match ev with EvDone => true | _ => false end.

Definition isRemoveAll (ev : event) : bool :=
  match ev with EvRemoveAll _ _ => true | _ => false end.

(** The place of an event in the life of the server; the events of the
    callback and the message on standard error have none. *)
Definition stage (ev : event) : option nat :=
  match ev with
  | EvOpenLog _ => Some 0%nat
  | EvMkdirAll _ => Some 1%nat
  | EvListen _ _ => Some 2%nat
  | EvBuildZipTree _ _ _ _ => Some 3%nat
  | EvGo _ _ => Some 4%nat
  | EvStarted _ => Some 5%nat
  | EvDone => Some 6%nat
  | EvRemoveAll _ _ => Some 7%nat
  | EvExit _ => Some 8%nat
  | EvDial _ _ | EvWrite _ _ _ | EvClose _ | EvStderr _ => None
  end.

(** Each number is less than the next. *)
Fixpoint increasing (l : list nat) : bool :=
  match l with
  | [] => true
  | x :: l' =>
      match l' with
      | [] => true
      | y :: _ => (x <? y)%nat && increasing l'
      end
  end.


End MountServer.

(* ===================================================================== *)
(** * Properties of pkg/remote/s3.go *)
(* ===================================================================== *)

Module RemoteFacts.
Import Remote.

(** ** Decimal rendering *)

Lemma to_uint_normal (p : positive) : Decimal.unorm (Pos.to_uint p) = Pos.to_uint p.
Proof.
  rewrite <- (DecimalPos.Unsigned.to_of (Pos.to_uint p)).
  now rewrite DecimalPos.Unsigned.of_to.
Qed.

Lemma to_uint_no_leading_zero (p : positive) (u : Decimal.uint) :
  Pos.to_uint p <> Decimal.D0 u.
Proof.
  intros H. pose proof (to_uint_normal p) as Hn. rewrite H in Hn.
  unfold Decimal.unorm in Hn.
  destruct (Decimal.nzhead (Decimal.D0 u)) eqn:Hz;
    try (apply (nzhead_nonzero (Decimal.D0 u) u); congruence).
  apply (DecimalPos.Unsigned.to_uint_nonzero p). congruence.
Qed.

Lemma string_of_uint_head (d : Decimal.uint) (s : string) :
  NilZero.string_of_uint d = String "0" s -> d = Decimal.Nil \/ exists u, d = Decimal.D0 u.
Proof. destruct d; simpl; intros H; try discriminate; eauto. Qed.

(** Only zero is printed with a leading ['0']. *)
Lemma fmt_d_leading_zero (z : Z) (s : string) :
  fmt_d z = String "0" s -> z = 0.
Proof.
  destruct z as [|p|p]; [reflexivity| |]; unfold fmt_d; simpl; intros H.
  - apply string_of_uint_head in H as [H|[u H]].
    + now apply DecimalPos.Unsigned.to_uint_nonnil in H.
    + now apply to_uint_no_leading_zero in H.
  - discriminate.
Qed.

(** ** [buildRange] *)

Lemma buildRange_cases (s e : Z) :
  buildRange s e =
    if decide (s = 0) then
      if decide (e = 0) then None else Some ("bytes=-" +:+ fmt_d e)
    else
      if decide (e = 0) then Some ("bytes=" +:+ fmt_d s +:+ "-")
      else Some ("bytes=" +:+ fmt_d s +:+ "-" +:+ fmt_d e).
Proof.
  unfold buildRange.
  destruct (Z.eqb_spec s 0), (Z.eqb_spec e 0);
    repeat case_decide; simpl; congruence.
Qed.

(** ** The log of a call *)

Lemma getServiceForBucket_unfold (sdk : SDK) (bucket : string) (c : gmap string S3API) :
  getServiceForBucket sdk bucket c =
    match c !! bucket with
    | Some svc => (Ok svc, c, [EvLock; EvUnlock])
    | None =>
        let answer := GetBucketRegionWithClient sdk (s3_New defaultRegion) bucket in
        match answer with
        | Err e => (Err e, c, [EvLock; EvGetBucketRegion bucket answer; EvUnlock])
        | Ok region =>
            (Ok (s3_New region), <[bucket := s3_New region]> c,
             [EvLock; EvGetBucketRegion bucket answer; EvUnlock])
        end
    end.
Proof.
  unfold getServiceForBucket, withLock.
  destruct (c !! bucket); [reflexivity|].
  simpl. destruct (GetBucketRegionWithClient _ _ _); reflexivity.
Qed.

Lemma getObjectInputs_getService (sdk : SDK) (b : string) (c : gmap string S3API) :
  getObjectInputs (getServiceForBucket sdk b c).2 = [].
Proof.
  rewrite getServiceForBucket_unfold.
  destruct (c !! b); [reflexivity|]. simpl.
  destruct (GetBucketRegionWithClient _ _ _); reflexivity.
Qed.

(** [Download] sends at most one [GetObject] request, and its range is
    what [buildRange] makes of the two offsets. *)
Lemma Download_range (sdk : SDK) (uri : string) (s e : Z) (c : gmap string S3API) :
  Forall (fun i => goi_Range i = buildRange s e)
         (getObjectInputs (Download sdk uri s e c).2).
Proof.
  unfold Download, bind, lift.
  destruct (parseUri sdk uri) as [parsed|err]; [|constructor].
  pose proof (getObjectInputs_getService sdk (Bucket parsed) c) as Hg.
  destruct (getServiceForBucket sdk (Bucket parsed) c) as [[[svc|err] c1] l1];
    simpl in Hg |- *; [|rewrite Hg; constructor].
  unfold emit; simpl.
  match goal with
  | |- context [s3IsNotFoundErr ?x] => destruct (s3IsNotFoundErr x)
  end.
  - unfold fail; simpl. unfold getObjectInputs in *.
    rewrite omap_app, Hg. simpl. repeat constructor.
  - destruct (GetObjectWithContext _ _ _); unfold fail, ret; simpl;
      unfold getObjectInputs in *; rewrite omap_app, Hg; simpl; repeat constructor.
Qed.

Lemma fmt_d_nonempty (z : Z) : fmt_d z <> ""%string.
Proof.
  destruct z as [|p|p]; unfold fmt_d; simpl; try discriminate.
  pose proof (DecimalPos.Unsigned.to_uint_nonnil p) as Hn.
  destruct (Pos.to_uint p); simpl; congruence.
Qed.

(** No pair of offsets makes the expression of a range that starts at
    byte 0 and has an end bound. *)
Lemma buildRange_no_prefix (s e N : Z) :
  buildRange s e <> Some ("bytes=0-" +:+ fmt_d N).
Proof.
  rewrite buildRange_cases.
  repeat case_decide; try discriminate; intros Heq; injection Heq as Heq;
    (destruct (fmt_d s) as [|a t] eqn:Hs; [now apply fmt_d_nonempty in Hs|]);
    simpl in Heq; injection Heq as Ha _; subst a;
    apply fmt_d_leading_zero in Hs; contradiction.
Qed.

(** ** [Download] and [SizeOf], path by path *)

Lemma Download_unfold (sdk : SDK) (uri : string) (s e : Z) (c : gmap string S3API) :
  Download sdk uri s e c =
    match parseUri sdk uri with
    | Err e0 => (Err e0, c, [])
    | Ok parsed =>
        match getServiceForBucket sdk (Bucket parsed) c with
        | (Err e1, c1, l1) => (Err e1, c1, l1)
        | (Ok svc, c1, l1) =>
            let input := {| goi_Bucket := Bucket parsed; goi_Key := Path parsed;
                            goi_Range := buildRange s e |} in
            (match mapNotFound (GetObjectWithContext sdk svc input) with
             | Err e2 => Err e2
             | Ok out => Ok (Body out)
             end, c1, l1 ++ [EvGetObject svc input])
        end
    end.
Proof.
  unfold Download, bind, lift.
  destruct (parseUri sdk uri) as [parsed|e0]; [|reflexivity].
  destruct (getServiceForBucket sdk (Bucket parsed) c) as [[[svc|e1] c1] l1];
    [|reflexivity].
  unfold emit, mapNotFound, fail, ret; cbv zeta.
  destruct (GetObjectWithContext _ _ _) as [out|e2]; [reflexivity|].
  change (errOf (Err e2)) with (Some e2).
  destruct (s3IsNotFoundErr (Some e2)); reflexivity.
Qed.

Lemma SizeOf_unfold (sdk : SDK) (uri : string) (c : gmap string S3API) :
  SizeOf sdk uri c =
    match parseUri sdk uri with
    | Err e0 => (Err e0, c, [])
    | Ok parsed =>
        match getServiceForBucket sdk (Bucket parsed) c with
        | (Err e1, c1, l1) => (Err e1, c1, l1)
        | (Ok svc, c1, l1) =>
            let input := {| hoi_Bucket := Bucket parsed; hoi_Key := Path parsed |} in
            (match mapNotFound (HeadObjectWithContext sdk svc input) with
             | Err e2 => Err e2
             | Ok out => Ok (Int64Value (ContentLength out))
             end, c1, l1 ++ [EvHeadObject svc input])
        end
    end.
Proof.
  unfold SizeOf, bind, lift.
  destruct (parseUri sdk uri) as [parsed|e0]; [|reflexivity].
  destruct (getServiceForBucket sdk (Bucket parsed) c) as [[[svc|e1] c1] l1];
    [|reflexivity].
  unfold emit, mapNotFound, fail, ret; cbv zeta.
  destruct (HeadObjectWithContext _ _ _) as [out|e2]; [reflexivity|].
  change (errOf (Err e2)) with (Some e2).
  destruct (s3IsNotFoundErr (Some e2)); reflexivity.
Qed.

Lemma s3IsNotFoundErr_codes (e : error) :
  s3IsNotFoundErr (Some e) = true <->
  exists msg, e = AwsError ErrCodeNoSuchBucket msg \/ e = AwsError ErrCodeNoSuchKey msg.
Proof.
  split.
  - destruct e as [code msg| |msg]; simpl; try discriminate.
    destruct (String.eqb_spec code ErrCodeNoSuchBucket); [subst; eauto|].
    destruct (String.eqb_spec code ErrCodeNoSuchKey); [subst; eauto|discriminate].
  - intros [msg [->| ->]]; reflexivity.
Qed.

(** Once the route is known, the answer of the object request is mapped as
    intended: the two not-found codes become the sentinel, any other error
    comes back as it is. *)
Lemma Download_object_request (sdk : SDK) (uri : string) (s e : Z)
    (c : gmap string S3API) (parsed : s3ParsedUri) (svc : S3API) :
  parseUri sdk uri = Ok parsed ->
  c !! Bucket parsed = Some svc ->
  forall err,
    GetObjectWithContext sdk svc
      {| goi_Bucket := Bucket parsed; goi_Key := Path parsed;
         goi_Range := buildRange s e |} = Err err ->
    (Download sdk uri s e c).1.1 =
      Err (if s3IsNotFoundErr (Some err) then ErrDoesNotExist else err).
Proof.
  intros Hp Hc err Hg.
  rewrite Download_unfold, Hp, getServiceForBucket_unfold, Hc. cbv zeta.
  rewrite Hg. unfold mapNotFound. now destruct (s3IsNotFoundErr (Some err)).
Qed.

Lemma SizeOf_object_request (sdk : SDK) (uri : string)
    (c : gmap string S3API) (parsed : s3ParsedUri) (svc : S3API) :
  parseUri sdk uri = Ok parsed ->
  c !! Bucket parsed = Some svc ->
  forall err,
    HeadObjectWithContext sdk svc
      {| hoi_Bucket := Bucket parsed; hoi_Key := Path parsed |} = Err err ->
    (SizeOf sdk uri c).1.1 =
      Err (if s3IsNotFoundErr (Some err) then ErrDoesNotExist else err).
Proof.
  intros Hp Hc err Hg.
  rewrite SizeOf_unfold, Hp, getServiceForBucket_unfold, Hc. cbv zeta.
  rewrite Hg. unfold mapNotFound. now destruct (s3IsNotFoundErr (Some err)).
Qed.

(** An error of route resolution leaves both methods as it is, whatever
    its code. *)
Lemma resolution_error_is_raw (sdk : SDK) (uri : string) (s e : Z)
    (c : gmap string S3API) (parsed : s3ParsedUri) (err : error) :
  parseUri sdk uri = Ok parsed ->
  c !! Bucket parsed = None ->
  GetBucketRegionWithClient sdk (s3_New defaultRegion) (Bucket parsed) = Err err ->
  (Download sdk uri s e c).1.1 = Err err /\ (SizeOf sdk uri c).1.1 = Err err.
Proof.
  intros Hp Hc Hr.
  rewrite Download_unfold, SizeOf_unfold, Hp, getServiceForBucket_unfold, Hc.
  simpl. now rewrite Hr.
Qed.

(** ** The route cache *)




(** ** The lock *)

Lemma calls_lockInv (c : gmap string S3API) (buckets : list string) :
  lockInv (calls c buckets).
Proof.
  intros i p Hi Hp. simpl in Hi. rewrite list_lookup_fmap in Hi.
  destruct (buckets !! i); simpl in Hi; [|discriminate].
  injection Hi as <-. discriminate.
Qed.

Lemma step_lockInv (sdk : SDK) (i : nat) (st st' : state) :
  lockInv st -> step sdk i st = Some st' -> lockInv st'.
Proof.
  intros Hinv. unfold step.
  destruct (goroutines st !! i) as [p|] eqn:Hi; [|discriminate].
  pose proof (lookup_lt_Some _ _ _ Hi) as Hlt.
  assert (Hother : forall j q, j <> i ->
            goroutines st !! j = Some q -> holdsLock q = true ->
            holder st = Some j) by (intros; eapply Hinv; eassumption).
  destruct p as [b|b|b|b region|r]; try discriminate.
  - (* Lock *)
    destruct (holder st) eqn:Hh; [discriminate|].
    intros [= <-] j q Hj Hq; simpl in *.
    destruct (decide (i = j)) as [->|Hne]; [reflexivity|].
    rewrite list_lookup_insert_ne in Hj by assumption.
    specialize (Hinv j q Hj Hq). congruence.
  - (* cache lookup *)
    pose proof (Hinv i _ Hi eq_refl) as Hmine.
    destruct (serviceCache st !! b); intros [= <-] j q Hj Hq; simpl in *;
      (destruct (decide (i = j)) as [->|Hne];
       [rewrite list_lookup_insert_eq in Hj by assumption;
        injection Hj as <-; try discriminate; assumption
       |rewrite list_lookup_insert_ne in Hj by assumption;
        specialize (Hinv j q Hj Hq); congruence]).
  - (* region lookup returns *)
    pose proof (Hinv i _ Hi eq_refl) as Hmine.
    destruct (GetBucketRegionWithClient _ _ _); intros [= <-] j q Hj Hq; simpl in *;
      (destruct (decide (i = j)) as [->|Hne];
       [rewrite list_lookup_insert_eq in Hj by assumption;
        injection Hj as <-; try discriminate; assumption
       |rewrite list_lookup_insert_ne in Hj by assumption;
        specialize (Hinv j q Hj Hq); congruence]).
  - (* cache store *)
    pose proof (Hinv i _ Hi eq_refl) as Hmine.
    intros [= <-] j q Hj Hq; simpl in *.
    destruct (decide (i = j)) as [->|Hne].
    + rewrite list_lookup_insert_eq in Hj by assumption.
      injection Hj as <-. discriminate.
    + rewrite list_lookup_insert_ne in Hj by assumption.
      specialize (Hinv j q Hj Hq). congruence.
Qed.

#[local] Arguments exec : simpl never.

Lemma exec_nil (sdk : SDK) (st : state) : exec sdk [] st = st.
Proof. reflexivity. Qed.

Lemma exec_cons (sdk : SDK) (i : nat) (sched : list nat) (st : state) :
  exec sdk (i :: sched) st = exec sdk sched (default st (step sdk i st)).
Proof. reflexivity. Qed.

Lemma exec_lockInv (sdk : SDK) (sched : list nat) (st : state) :
  lockInv st -> lockInv (exec sdk sched st).
Proof.
  revert st. induction sched as [|i sched IH]; intros st Hinv; [assumption|].
  rewrite exec_cons. apply IH.
  destruct (step sdk i st) as [st'|] eqn:Hs; simpl; [|assumption].
  eapply step_lockInv; eassumption.
Qed.

(** A goroutine running alone goes through the program points and ends
    with what [getServiceForBucket] returns. *)
Lemma exec_alone (sdk : SDK) (bucket : string) (c : gmap string S3API) :
  exec sdk [0; 0; 0; 0]%nat (calls c [bucket]) =
    {| holder := None;
       serviceCache := (getServiceForBucket sdk bucket c).1.2;
       goroutines := [Returned (getServiceForBucket sdk bucket c).1.1] |}.
Proof.
  rewrite getServiceForBucket_unfold. cbv zeta.
  destruct (c !! bucket) as [svc|] eqn:Hc;
    [|destruct (GetBucketRegionWithClient sdk (s3_New defaultRegion) bucket) eqn:Hr];
    repeat (rewrite exec_cons; unfold step at 1; simpl; rewrite ?Hc, ?Hr; simpl);
    now rewrite exec_nil.
Qed.


(** ** Range expressions of [Download] *)

(** C1. For every pair of offsets, [buildRange] produces the expression of
    the documented form for that pair: nothing when both are zero,
    [bytes=start-] when only the start is non-zero, [bytes=start-end] when
    both are, [bytes=-end] when only the end is; nothing is produced exactly
    for (0, 0); and this is the range of the one request a [Download] with
    these offsets sends. *)
Theorem buildRange_documented (sdk : SDK) (uri : string) (offsetStart offsetEnd : Z)
    (c : gmap string S3API) :
  buildRange offsetStart offsetEnd = render (documentedForm offsetStart offsetEnd)
  /\ (buildRange offsetStart offsetEnd = None <-> offsetStart = 0 /\ offsetEnd = 0)
  /\ Forall (fun i => goi_Range i = render (documentedForm offsetStart offsetEnd))
       (getObjectInputs (Download sdk uri offsetStart offsetEnd c).2)
  /\ (length (getObjectInputs (Download sdk uri offsetStart offsetEnd c).2) <= 1)%nat.
Proof.
  assert (Hform : buildRange offsetStart offsetEnd
                  = render (documentedForm offsetStart offsetEnd)).
  { rewrite buildRange_cases. unfold documentedForm.
    repeat case_decide; destruct (Z.eq_dec offsetStart 0), (Z.eq_dec offsetEnd 0);
      simpl; congruence. }
  split; [exact Hform|]. split.
  - rewrite buildRange_cases. repeat case_decide; split; intros Hx;
      try discriminate; try tauto; lia.
  - split.
    + rewrite <- Hform. apply Download_range.
    + rewrite Download_unfold.
      destruct (parseUri sdk uri) as [parsed|e0]; simpl; [|lia].
      pose proof (getObjectInputs_getService sdk (Bucket parsed) c) as Hg.
      destruct (getServiceForBucket sdk (Bucket parsed) c) as [[[svc|e1] c1] l1];
        simpl in Hg |- *.
      * unfold getObjectInputs in *. rewrite omap_app, Hg. simpl. lia.
      * rewrite Hg. simpl. lia.
Qed.

(** C9. With a zero start and an end of N > 0, [Download] asks for the
    suffix range [bytes=-N], the last N bytes; and no pair of offsets makes
    the expression [bytes=0-N] of the prefix that ends at byte N. *)
Theorem zero_start_is_suffix (sdk : SDK) (uri : string) (N : Z)
    (c : gmap string S3API) :
  0 < N ->
  buildRange 0 N = Some ("bytes=-" +:+ fmt_d N)
  /\ Forall (fun i => goi_Range i = Some ("bytes=-" +:+ fmt_d N))
       (getObjectInputs (Download sdk uri 0 N c).2)
  /\ forall offsetStart offsetEnd,
       buildRange offsetStart offsetEnd <> Some ("bytes=0-" +:+ fmt_d N).
Proof.
  intros HN.
  assert (Hb : buildRange 0 N = Some ("bytes=-" +:+ fmt_d N)).
  { rewrite buildRange_cases. repeat case_decide; try lia. reflexivity. }
  split; [exact Hb|]. split.
  - rewrite <- Hb. apply Download_range.
  - intros s e. apply buildRange_no_prefix.
Qed.

Lemma zero_start_is_suffix_witness :
  0 < 7
  /\ buildRange 0 7 = Some "bytes=-7"%string
  /\ (Download world "s3://archives/big.zip" 0 7 NewS3Downloader).2
     = [EvLock; EvGetBucketRegion "archives" (Ok "eu-west-1"%string); EvUnlock;
        EvGetObject (s3_New "eu-west-1")
          {| goi_Bucket := "archives"; goi_Key := "/big.zip";
             goi_Range := Some "bytes=-7"%string |}].
Proof.
  split; [lia|]. split.
  - exact (proj1 (zero_start_is_suffix world "s3://archives/big.zip" 7
                    NewS3Downloader ltac:(lia))).
  - reflexivity.
Defined.

(** ** Not-found errors *)

(** C2. A bucket that does not exist, on the first call that names it: the
    region lookup reports [NoSuchBucket], and [Download] and [SizeOf] return
    that error as the backend made it, not [ErrDoesNotExist], although
    [s3IsNotFoundErr] holds of it. With a route for the same bucket already
    in the cache, the same error code comes from the object request and both
    methods return [ErrDoesNotExist]. *)
Theorem missing_bucket_error_is_raw :
  let raw := AwsError ErrCodeNoSuchBucket "The specified bucket does not exist" in
  let uri := "s3://no-such-bucket/big.zip"%string in
  let cached : gmap string S3API := {[ "no-such-bucket"%string := s3_New defaultRegion ]} in
  (Download world uri 0 0 NewS3Downloader).1.1 = Err raw
  /\ (SizeOf world uri NewS3Downloader).1.1 = Err raw
  /\ s3IsNotFoundErr (Some raw) = true
  /\ raw <> ErrDoesNotExist
  /\ (Download world uri 0 0 cached).1.1 = Err ErrDoesNotExist
  /\ (SizeOf world uri cached).1.1 = Err ErrDoesNotExist.
Proof. repeat split; discriminate. Qed.

(** ** Failed route resolution *)



(** ** Route resolution and the lock *)

(** C7, as the claim has it, fails: two calls for the buckets [a] and [b] on
    a new downloader; after the first has taken the lock and missed the
    cache, its region lookup is in flight while it holds the lock, and the
    second call, for the other bucket, cannot move. *)
Lemma lookup_in_flight_blocks_other_bucket :
  let st := exec world [0; 0]%nat (calls NewS3Downloader ["a"; "b"]%string) in
  goroutines st !! 0%nat = Some (AtRegion "a")
  /\ holder st = Some 0%nat
  /\ blocked world 1 st.
Proof.
  repeat split.
  exists "b"%string. reflexivity.
Qed.

(** C7, amended. In every state that concurrent calls can reach, a
    goroutine whose region lookup is in flight holds the lock, no other
    goroutine is between [Lock] and its return, and every goroutine that has
    yet to take the lock cannot move, whatever its bucket. *)
Theorem lookup_runs_under_lock (sdk : SDK) (c : gmap string S3API)
    (buckets : list string) (sched : list nat) (i : nat) (bucket : string) :
  goroutines (exec sdk sched (calls c buckets)) !! i = Some (AtRegion bucket) ->
  let st := exec sdk sched (calls c buckets) in
  holder st = Some i
  /\ (forall j p, j <> i -> goroutines st !! j = Some p -> holdsLock p = false)
  /\ (forall j b, goroutines st !! j = Some (AtLock b) -> blocked sdk j st).
Proof.
  intros Hi st.
  pose proof (exec_lockInv sdk sched _ (calls_lockInv c buckets)) as Hinv.
  fold st in Hinv, Hi.
  assert (Hh : holder st = Some i) by (apply (Hinv i _ Hi); reflexivity).
  split; [exact Hh|]. split.
  - intros j p Hne Hj. destruct (holdsLock p) eqn:Hp; [|reflexivity].
    specialize (Hinv j p Hj Hp). congruence.
  - intros j b Hj. split; [eauto|].
    unfold step. rewrite Hj, Hh. reflexivity.
Qed.

Lemma lookup_runs_under_lock_witness :
  holder (exec world [0; 0]%nat (calls NewS3Downloader ["a"; "b"]%string)) = Some 0%nat.
Proof.
  exact (proj1 (lookup_runs_under_lock world NewS3Downloader ["a"; "b"]%string
                  [0; 0]%nat 0%nat "a" eq_refl)).
Defined.

(** ** More on the route cache *)
Lemma resolutions_app (b : string) (l1 l2 : list event) :
  resolutions b (l1 ++ l2) = resolutions b l1 ++ resolutions b l2.
Proof. apply omap_app. Qed.

(** What one call of [getServiceForBucket] adds to the successful lookups
    of a bucket. *)
Lemma getServiceForBucket_resolutions (sdk : SDK) (bucket b : string)
    (c : gmap string S3API) :
  let '(r, c', l) := getServiceForBucket sdk bucket c in
  match c !! b, c' !! b with
  | Some svc, Some svc' => svc' = svc /\ resolutions b l = []
  | None, Some svc' => b = bucket /\ resolutions b l = [svc_region svc'] /\ r = Ok svc'
  | None, None => resolutions b l = []
  | Some _, None => False
  end.
Proof.
  rewrite getServiceForBucket_unfold.
  destruct (c !! bucket) as [svc0|] eqn:Hc.
  - destruct (c !! b); simpl; auto.
  - cbv zeta.
    destruct (GetBucketRegionWithClient sdk (s3_New defaultRegion) bucket)
      as [region|err].
    + destruct (decide (bucket = b)) as [->|Hne].
      * rewrite Hc, lookup_insert_eq. simpl. rewrite decide_True by reflexivity. auto.
      * rewrite lookup_insert_ne by assumption.
        destruct (c !! b); simpl; rewrite decide_False by assumption; auto.
    + destruct (c !! b); simpl; auto.
Qed.

Lemma routeStep_refl (c : gmap string S3API) (b : string) : routeStep c c [] b.
Proof. unfold routeStep. destruct (c !! b); auto. Qed.

Lemma routeStep_getService (sdk : SDK) (bucket b : string) (c : gmap string S3API) :
  routeStep c (getServiceForBucket sdk bucket c).1.2
    (getServiceForBucket sdk bucket c).2 b.
Proof.
  pose proof (getServiceForBucket_resolutions sdk bucket b c) as H.
  destruct (getServiceForBucket sdk bucket c) as [[r c'] l]. simpl.
  unfold routeStep. destruct (c !! b), (c' !! b); tauto.
Qed.

Lemma routeStep_snoc (c c' : gmap string S3API) (l : list event) (ev : event) (b : string) :
  resolutions b [ev] = [] -> routeStep c c' l b -> routeStep c c' (l ++ [ev]) b.
Proof.
  unfold routeStep. intros Hev. rewrite resolutions_app, Hev, app_nil_r. auto.
Qed.

Lemma routeStep_Download (sdk : SDK) (uri : string) (s e : Z) (b : string)
    (c : gmap string S3API) :
  routeStep c (Download sdk uri s e c).1.2 (Download sdk uri s e c).2 b.
Proof.
  rewrite Download_unfold.
  destruct (parseUri sdk uri) as [parsed|e0]; [|apply routeStep_refl].
  pose proof (routeStep_getService sdk (Bucket parsed) b c) as H.
  destruct (getServiceForBucket sdk (Bucket parsed) c) as [[[svc|e1] c1] l1];
    simpl in *; [|assumption].
  now apply routeStep_snoc.
Qed.

Lemma routeStep_SizeOf (sdk : SDK) (uri : string) (b : string)
    (c : gmap string S3API) :
  routeStep c (SizeOf sdk uri c).1.2 (SizeOf sdk uri c).2 b.
Proof.
  rewrite SizeOf_unfold.
  destruct (parseUri sdk uri) as [parsed|e0]; [|apply routeStep_refl].
  pose proof (routeStep_getService sdk (Bucket parsed) b c) as H.
  destruct (getServiceForBucket sdk (Bucket parsed) c) as [[[svc|e1] c1] l1];
    simpl in *; [|assumption].
  now apply routeStep_snoc.
Qed.

Lemma routeStep_resolutions (c c' : gmap string S3API) (h l : list event) (b : string) :
  resolutions b h = match c !! b with Some svc => [svc_region svc] | None => [] end ->
  routeStep c c' l b ->
  resolutions b (h ++ l)
  = match c' !! b with Some svc => [svc_region svc] | None => [] end.
Proof.
  unfold routeStep. intros Hh. rewrite resolutions_app, Hh.
  destruct (c !! b), (c' !! b); simpl; try tauto.
  intros [-> ->]. reflexivity.
Qed.

(** X1. Over the whole life of a downloader, whatever the sequence of
    calls and however the backend answers, the region of a bucket is
    resolved successfully at most once: the log holds exactly one successful
    lookup for each bucket in the cache, with the region of the cached
    client, and none for a bucket that is not cached. *)
Theorem resolved_at_most_once (c : gmap string S3API) (h : list event) (b : string) :
  history c h ->
  resolutions b h = match c !! b with Some svc => [svc_region svc] | None => [] end.
Proof.
  induction 1 as [|sdk bucket c h r c' l _ IH Hcall
                  |sdk uri s e c h r c' l _ IH Hcall
                  |sdk uri c h r c' l _ IH Hcall].
  - reflexivity.
  - apply (routeStep_resolutions c); [exact IH|].
    pose proof (routeStep_getService sdk bucket b c) as H. now rewrite Hcall in H.
  - apply (routeStep_resolutions c); [exact IH|].
    pose proof (routeStep_Download sdk uri s e b c) as H. now rewrite Hcall in H.
  - apply (routeStep_resolutions c); [exact IH|].
    pose proof (routeStep_SizeOf sdk uri b c) as H. now rewrite Hcall in H.
Qed.

Lemma resolved_at_most_once_witness :
  resolutions "archives"
    ((SizeOf world "s3://archives/big.zip" NewS3Downloader).2
     ++ (Download world "s3://archives/big.zip" 0 7
           (SizeOf world "s3://archives/big.zip" NewS3Downloader).1.2).2)
  = ["eu-west-1"%string].
Proof.
  exact (resolved_at_most_once _ _ "archives"
           (history_Download world "s3://archives/big.zip" 0 7 _ _ _ _ _
              (history_SizeOf world "s3://archives/big.zip" _ _ _ _ _
                 history_new eq_refl) eq_refl)).
Defined.

(** X2. A call never replaces or drops a cached client, and the only entry
    it can add is the one for the bucket it was asked about. *)
Theorem cache_only_grows (sdk : SDK) (uri bucket : string) (s e : Z)
    (c : gmap string S3API) :
  let grows (c' : gmap string S3API) (asked : option string) :=
    c ⊆ c' /\ forall b, c !! b = None -> is_Some (c' !! b) -> asked = Some b in
  grows (getServiceForBucket sdk bucket c).1.2 (Some bucket)
  /\ grows (Download sdk uri s e c).1.2
       (match parseUri sdk uri with Ok p => Some (Bucket p) | Err _ => None end)
  /\ grows (SizeOf sdk uri c).1.2
       (match parseUri sdk uri with Ok p => Some (Bucket p) | Err _ => None end).
Proof.
  assert (Hg : forall bucket, c ⊆ (getServiceForBucket sdk bucket c).1.2
             /\ forall b, c !! b = None ->
                  is_Some ((getServiceForBucket sdk bucket c).1.2 !! b) ->
                  Some bucket = Some b).
  { intros bk. rewrite getServiceForBucket_unfold.
    destruct (c !! bk) as [svc|] eqn:Hc; simpl.
    - split; [reflexivity|]. intros b Hb [x Hx]. congruence.
    - destruct (GetBucketRegionWithClient sdk (s3_New defaultRegion) bk); simpl.
      + split; [now apply insert_subseteq|].
        intros b Hb [x Hx]. destruct (decide (bk = b)) as [->|Hne]; [reflexivity|].
        rewrite lookup_insert_ne in Hx by assumption. congruence.
      + split; [reflexivity|]. intros b Hb [x Hx]. congruence. }
  intros grows. split; [apply Hg|]. split.
  - unfold grows. rewrite Download_unfold.
    destruct (parseUri sdk uri) as [parsed|e0]; simpl.
    + specialize (Hg (Bucket parsed)).
      destruct (getServiceForBucket sdk (Bucket parsed) c) as [[[svc|e1] c1] l1];
        exact Hg.
    + split; [reflexivity|]. intros b Hb [x Hx]. congruence.
  - unfold grows. rewrite SizeOf_unfold.
    destruct (parseUri sdk uri) as [parsed|e0]; simpl.
    + specialize (Hg (Bucket parsed)).
      destruct (getServiceForBucket sdk (Bucket parsed) c) as [[[svc|e1] c1] l1];
        exact Hg.
    + split; [reflexivity|]. intros b Hb [x Hx]. congruence.
Qed.



(** ** Progress of concurrent calls *)






Lemma remaining_insert (l : list pc) (i : nat) (p q : pc) :
  l !! i = Some p -> (stepsLeft q < stepsLeft p)%nat ->
  (foldr (fun p n => stepsLeft p + n) 0 (<[i := q]> l)
   < foldr (fun p n => stepsLeft p + n) 0 l)%nat.
Proof.
  revert i. induction l as [|x l IH]; intros [|i] Hi Hlt; simpl in *;
    try discriminate.
  - injection Hi as ->. lia.
  - specialize (IH i Hi Hlt). lia.
Qed.

(** ** The client a concurrent call returns *)








Lemma step_remaining (sdk : SDK) (i : nat) (st st' : state) :
  step sdk i st = Some st' -> (remaining st' < remaining st)%nat.
Proof.
  intros Hs. unfold step in Hs. unfold remaining.
  destruct (goroutines st !! i) as [p|] eqn:Hi; [|discriminate].
  destruct p as [b|b|b|b region|r]; try discriminate;
    repeat match type of Hs with
           | match ?x with _ => _ end = _ => destruct x
           end;
    try discriminate; injection Hs as <-; simpl;
    (eapply remaining_insert; [eassumption|simpl; lia]).
Qed.

Lemma remaining_calls (c : gmap string S3API) (buckets : list string) :
  remaining (calls c buckets) = (4 * length buckets)%nat.
Proof.
  unfold remaining, calls; simpl.
  induction buckets as [|b bs IH]; [reflexivity|].
  change (S (S (S (S (foldr (fun p n => stepsLeft p + n) 0 (AtLock <$> bs)))))
          = 4 * S (length bs))%nat.
  rewrite IH. lia.
Qed.

Lemma moves_remaining (sdk : SDK) (sched : list nat) (st : state) :
  (moves sdk sched st + remaining (exec sdk sched st) <= remaining st)%nat.
Proof.
  revert st. induction sched as [|i sched IH]; intros st; [simpl; rewrite exec_nil; lia|].
  rewrite exec_cons. simpl. destruct (step sdk i st) as [st'|] eqn:Hs; simpl.
  - specialize (IH st'). apply step_remaining in Hs. lia.
  - apply IH.
Qed.

(** X6. Under any schedule, [n] concurrent calls make at most [4 * n] steps
    in all: each step of a goroutine uses up one of the at most four steps
    of its call. *)
Theorem moves_bounded (sdk : SDK) (c : gmap string S3API) (buckets : list string)
    (sched : list nat) :
  (moves sdk sched (calls c buckets)
   + remaining (exec sdk sched (calls c buckets)) <= 4 * length buckets)%nat.
Proof. rewrite <- (remaining_calls c buckets). apply moves_remaining. Qed.

(** X7. After a [SizeOf] that succeeded, a [Download] of the same URI makes
    no region lookup, whatever the backend would answer by then: it takes the
    client from the cache, leaves the cache as it is, and sends its one
    object request with that client. *)
Theorem route_is_reused (sdk sdk' : SDK) (uri : string) (s e n : Z)
    (c : gmap string S3API) :
  url_Parse sdk' uri = url_Parse sdk uri ->
  (SizeOf sdk uri c).1.1 = Ok n ->
  let c1 := (SizeOf sdk uri c).1.2 in
  exists parsed svc,
    parseUri sdk uri = Ok parsed
    /\ c1 !! Bucket parsed = Some svc
    /\ (Download sdk' uri s e c1).1.2 = c1
    /\ (Download sdk' uri s e c1).2
       = [EvLock; EvUnlock;
          EvGetObject svc {| goi_Bucket := Bucket parsed; goi_Key := Path parsed;
                             goi_Range := buildRange s e |}].
Proof.
  intros Hparse Hok c1. subst c1.
  assert (Hp' : parseUri sdk' uri = parseUri sdk uri)
    by (unfold parseUri; now rewrite Hparse).
  rewrite Download_unfold, Hp'. rewrite SizeOf_unfold in Hok |- *.
  destruct (parseUri sdk uri) as [parsed|e0]; [|discriminate].
  assert (Hc : exists svc, (getServiceForBucket sdk (Bucket parsed) c).1.1 = Ok svc
             /\ (getServiceForBucket sdk (Bucket parsed) c).1.2 !! Bucket parsed = Some svc).
  { rewrite getServiceForBucket_unfold.
    destruct (c !! Bucket parsed) as [svc|] eqn:Hc; simpl; [eauto|].
    destruct (GetBucketRegionWithClient sdk (s3_New defaultRegion) (Bucket parsed))
      eqn:Hr; simpl.
    - eexists. split; [reflexivity|apply lookup_insert_eq].
    - rewrite getServiceForBucket_unfold, Hc in Hok. cbv zeta in Hok.
      rewrite Hr in Hok. discriminate. }
  destruct Hc as (svc & Hr & Hc).
  destruct (getServiceForBucket sdk (Bucket parsed) c) as [[r c1] l1]; simpl in *.
  subst r. simpl. exists parsed, svc. split; [reflexivity|]. split; [assumption|].
  rewrite getServiceForBucket_unfold, Hc. simpl. auto.
Qed.

Lemma route_is_reused_witness :
  (Download world "s3://archives/big.zip" 100 0
     (SizeOf world "s3://archives/big.zip" NewS3Downloader).1.2).2
  = [EvLock; EvUnlock;
     EvGetObject (s3_New "eu-west-1")
       {| goi_Bucket := "archives"; goi_Key := "/big.zip";
          goi_Range := Some "bytes=100-"%string |}].
Proof.
  destruct (route_is_reused world world "s3://archives/big.zip" 100 0 500
              NewS3Downloader eq_refl eq_refl) as (p & svc & Hp & Hc & _ & Hl).
  injection Hp as <-. injection Hc as <-. exact Hl.
Defined.

Lemma mapNotFound_sentinel {A} (answer : result A) :
  answer <> Err ErrDoesNotExist ->
  mapNotFound answer = Err ErrDoesNotExist <->
  exists code msg, answer = Err (AwsError code msg) /\ notFoundCode code.
Proof.
  intros Hne. destruct answer as [a|e2]; unfold mapNotFound.
  - split; [discriminate|intros (? & ? & ? & _); discriminate].
  - destruct (s3IsNotFoundErr (Some e2)) eqn:Hnf.
    + apply s3IsNotFoundErr_codes in Hnf as [msg Hmsg].
      split; [intros _|reflexivity].
      destruct Hmsg as [-> | ->]; do 2 eexists; (split; [reflexivity|]);
        [now left|now right].
    + split.
      * intros [= ->]. congruence.
      * intros (code & msg & [= ->] & [-> | ->]); discriminate.
Qed.

(** X8. Against a backend that does not itself hand out the sentinel of this
    package, [Download] and [SizeOf] report [ErrDoesNotExist] exactly when
    the URI parses, the route resolves, and the object request fails with the
    code [NoSuchBucket] or [NoSuchKey]; no other failure looks like a
    missing object. *)
Theorem not_found_exactly (sdk : SDK) (uri : string) (s e : Z) (c : gmap string S3API) :
  foreign sdk ->
  ((Download sdk uri s e c).1.1 = Err ErrDoesNotExist <->
   exists parsed svc code msg,
     parseUri sdk uri = Ok parsed
     /\ (getServiceForBucket sdk (Bucket parsed) c).1.1 = Ok svc
     /\ GetObjectWithContext sdk svc
          {| goi_Bucket := Bucket parsed; goi_Key := Path parsed;
             goi_Range := buildRange s e |} = Err (AwsError code msg)
     /\ notFoundCode code)
  /\ ((SizeOf sdk uri c).1.1 = Err ErrDoesNotExist <->
      exists parsed svc code msg,
        parseUri sdk uri = Ok parsed
        /\ (getServiceForBucket sdk (Bucket parsed) c).1.1 = Ok svc
        /\ HeadObjectWithContext sdk svc
             {| hoi_Bucket := Bucket parsed; hoi_Key := Path parsed |}
           = Err (AwsError code msg)
        /\ notFoundCode code).
Proof.
  intros (Hfp & Hfr & Hfg & Hfh).
  assert (Hfp' : parseUri sdk uri <> Err ErrDoesNotExist).
  { unfold parseUri. specialize (Hfp uri).
    destruct (url_Parse sdk uri); congruence. }
  assert (Hfs : forall b, (getServiceForBucket sdk b c).1.1 <> Err ErrDoesNotExist).
  { intros b. rewrite getServiceForBucket_unfold.
    destruct (c !! b); simpl; [discriminate|].
    specialize (Hfr (s3_New defaultRegion) b).
    destruct (GetBucketRegionWithClient sdk (s3_New defaultRegion) b); simpl;
      congruence. }
  split.
  - rewrite Download_unfold.
    destruct (parseUri sdk uri) as [parsed|e0] eqn:Hp.
    + specialize (Hfs (Bucket parsed)).
      destruct (getServiceForBucket sdk (Bucket parsed) c) as [[[svc|e1] c1] l1]
        eqn:Hgs; simpl in *.
      * pose proof (mapNotFound_sentinel (GetObjectWithContext sdk svc
            {| goi_Bucket := Bucket parsed; goi_Key := Path parsed;
               goi_Range := buildRange s e |}) (Hfg _ _)) as Hmap.
        split.
        -- intros H. destruct (mapNotFound _) as [out|e2] eqn:Hm; [discriminate|].
           injection H as ->.
           destruct (proj1 Hmap eq_refl) as (code & msg & Hg & Hcode).
           exists parsed, svc, code, msg. rewrite Hgs. auto.
        -- intros (p & svc' & code & msg & [= <-] & Hsvc & Hg & Hcode).
           rewrite Hgs in Hsvc. injection Hsvc as <-.
           rewrite (proj2 Hmap); [reflexivity|eauto].
      * split; [intros [= ->]; now destruct Hfs|].
        intros (p & svc' & code & msg & [= <-] & Hsvc & _).
        rewrite Hgs in Hsvc. discriminate.
    + split; [intros [= ->]; now destruct Hfp'|].
      intros (p & ? & ? & ? & ? & _). discriminate.
  - rewrite SizeOf_unfold.
    destruct (parseUri sdk uri) as [parsed|e0] eqn:Hp.
    + specialize (Hfs (Bucket parsed)).
      destruct (getServiceForBucket sdk (Bucket parsed) c) as [[[svc|e1] c1] l1]
        eqn:Hgs; simpl in *.
      * pose proof (mapNotFound_sentinel (HeadObjectWithContext sdk svc
            {| hoi_Bucket := Bucket parsed; hoi_Key := Path parsed |}) (Hfh _ _))
          as Hmap.
        split.
        -- intros H. destruct (mapNotFound _) as [out|e2] eqn:Hm; [discriminate|].
           injection H as ->.
           destruct (proj1 Hmap eq_refl) as (code & msg & Hg & Hcode).
           exists parsed, svc, code, msg. rewrite Hgs. auto.
        -- intros (p & svc' & code & msg & [= <-] & Hsvc & Hg & Hcode).
           rewrite Hgs in Hsvc. injection Hsvc as <-.
           rewrite (proj2 Hmap); [reflexivity|eauto].
      * split; [intros [= ->]; now destruct Hfs|].
        intros (p & svc' & code & msg & [= <-] & Hsvc & _).
        rewrite Hgs in Hsvc. discriminate.
    + split; [intros [= ->]; now destruct Hfp'|].
      intros (p & ? & ? & ? & ? & _). discriminate.
Qed.


Lemma world_foreign : foreign world.
Proof.
  repeat split; simpl.
  - intros uri. unfold parseS3. repeat case_match; discriminate.
  - intros _ b. case_match; discriminate.
  - intros _ i. repeat case_match; discriminate.
  - intros _ i. repeat case_match; discriminate.
Qed.

Lemma not_found_exactly_witness :
  (SizeOf world "s3://no-such-bucket/big.zip"
     {[ "no-such-bucket"%string := s3_New defaultRegion ]}).1.1
  = Err ErrDoesNotExist.
Proof.
  apply (proj2 (not_found_exactly world "s3://no-such-bucket/big.zip" 0 0
                  {[ "no-such-bucket"%string := s3_New defaultRegion ]}
                  world_foreign)).
  exists {| Bucket := "no-such-bucket"; Path := "/big.zip" |}, (s3_New defaultRegion),
    ErrCodeNoSuchBucket, "The specified bucket does not exist"%string.
  repeat split. now left.
Defined.

(** ** Reading the offsets back from a range expression *)

Lemma append_cons (a : ascii) (s t : string) : String a s +:+ t = String a (s +:+ t).
Proof. reflexivity. Qed.

Lemma string_of_uint_digits (d : Decimal.uint) :
  allDigits (NilEmpty.string_of_uint d) = true.
Proof. induction d; simpl; auto. Qed.

(** A printed integer is an optional minus sign and then digits, at least
    one. *)
Lemma fmt_d_shape (z : Z) :
  exists ds, allDigits ds = true /\ ds <> ""%string
             /\ fmt_d z = if z <? 0 then String "-" ds else ds.
Proof.
  destruct z as [|p|p]; unfold fmt_d; simpl.
  - exists "0"%string. repeat split. discriminate.
  - exists (NilEmpty.string_of_uint (Pos.to_uint p)).
    pose proof (DecimalPos.Unsigned.to_uint_nonnil p) as Hn.
    split; [apply string_of_uint_digits|].
    destruct (Pos.to_uint p); try contradiction; split; try reflexivity; discriminate.
  - exists (NilEmpty.string_of_uint (Pos.to_uint p)).
    pose proof (DecimalPos.Unsigned.to_uint_nonnil p) as Hn.
    split; [apply string_of_uint_digits|].
    destruct (Pos.to_uint p); try contradiction; split; try reflexivity; discriminate.
Qed.

Lemma fmt_d_inj (a b : Z) : fmt_d a = fmt_d b -> a = b.
Proof.
  unfold fmt_d. intros H. apply DecimalZ.to_int_inj.
  assert (Hnn : forall z, Z.to_int z <> Decimal.Pos Decimal.Nil
                          /\ Z.to_int z <> Decimal.Neg Decimal.Nil).
  { intros [|p|p]; simpl; split; try discriminate;
      intros [= Hx]; now apply DecimalPos.Unsigned.to_uint_nonnil in Hx. }
  destruct (Hnn a) as [Ha1 Ha2]. destruct (Hnn b) as [Hb1 Hb2].
  pose proof (NilZero.isi _ Ha1 Ha2) as Ia.
  pose proof (NilZero.isi _ Hb1 Hb2) as Ib.
  rewrite H in Ia. congruence.
Qed.

(** Digits, a minus sign and a rest split in one way only. *)
Lemma digits_split (d1 d2 r1 r2 : string) :
  allDigits d1 = true -> allDigits d2 = true ->
  d1 +:+ String "-" r1 = d2 +:+ String "-" r2 -> d1 = d2 /\ r1 = r2.
Proof.
  revert d2. induction d1 as [|a d1 IH]; intros [|b d2] H1 H2 Heq.
  - now injection Heq as ->.
  - rewrite append_cons in Heq. injection Heq as <- _.
    simpl in H2. discriminate.
  - rewrite append_cons in Heq. injection Heq as -> _.
    simpl in H1. discriminate.
  - rewrite !append_cons in Heq. injection Heq as -> Heq.
    simpl in H1, H2. apply andb_true_iff in H1 as [_ H1], H2 as [_ H2].
    destruct (IH d2 H1 H2 Heq) as [-> ->]. now split.
Qed.

Lemma digits_no_minus (d r : string) : allDigits (d +:+ String "-" r) = false.
Proof.
  induction d as [|a d IH]; [reflexivity|].
  rewrite append_cons. simpl. rewrite IH. apply andb_false_r.
Qed.

Lemma body_split (s s' : Z) (r r' : string) :
  fmt_d s +:+ String "-" r = fmt_d s' +:+ String "-" r' -> s = s' /\ r = r'.
Proof.
  destruct (fmt_d_shape s) as (ds & Hd & Hne & Hs).
  destruct (fmt_d_shape s') as (ds' & Hd' & Hne' & Hs').
  intros Heq. assert (fmt_d s = fmt_d s' /\ r = r') as [Hf ->];
    [|split; [now apply fmt_d_inj|reflexivity]].
  rewrite Hs, Hs' in Heq |- *.
  destruct (s <? 0), (s' <? 0).
  - rewrite !append_cons in Heq. injection Heq as Heq.
    destruct (digits_split _ _ _ _ Hd Hd' Heq) as [-> ->]. now split.
  - destruct ds' as [|b t]; [contradiction|].
    rewrite !append_cons in Heq. injection Heq as <- _. simpl in Hd'. discriminate.
  - destruct ds as [|b t]; [contradiction|].
    rewrite !append_cons in Heq. injection Heq as -> _. simpl in Hd. discriminate.
  - destruct (digits_split _ _ _ _ Hd Hd' Heq) as [-> ->]. now split.
Qed.

Lemma body_not_suffix (s e : Z) (r : string) :
  fmt_d s +:+ String "-" r <> String "-" (fmt_d e).
Proof.
  destruct (fmt_d_shape s) as (ds & Hd & Hne & Hs).
  destruct (fmt_d_shape e) as (de & Hde & Hnee & He).
  rewrite Hs, He. intros Heq.
  destruct ds as [|b t]; [contradiction|].
  destruct (s <? 0).
  - rewrite !append_cons in Heq. injection Heq as Heq.
    destruct (e <? 0).
    + injection Heq as -> _. simpl in Hd. discriminate.
    + rewrite <- Heq, <- append_cons, digits_no_minus in Hde. discriminate.
  - rewrite append_cons in Heq. injection Heq as -> _. simpl in Hd. discriminate.
Qed.

(** X9. The range expression determines the two offsets: two calls with
    different pairs of offsets never ask for the same range. *)
Theorem buildRange_inj (s e s' e' : Z) :
  buildRange s e = buildRange s' e' -> s = s' /\ e = e'.
Proof.
  rewrite !buildRange_cases.
  change ("bytes=-" +:+ fmt_d e) with ("bytes=" +:+ String "-" (fmt_d e)).
  change ("bytes=-" +:+ fmt_d e') with ("bytes=" +:+ String "-" (fmt_d e')).
  change ("-" +:+ fmt_d e) with (String "-" (fmt_d e)).
  change ("-" +:+ fmt_d e') with (String "-" (fmt_d e')).
  change (fmt_d s +:+ "-") with (fmt_d s +:+ String "-" "").
  change (fmt_d s' +:+ "-") with (fmt_d s' +:+ String "-" "").
  repeat case_decide; subst; try discriminate; try (now split);
    intros Heq; injection Heq as Heq.
  all: try (now apply body_not_suffix in Heq).
  all: try (symmetry in Heq; now apply body_not_suffix in Heq).
  all: try (apply fmt_d_inj in Heq; now split).
  all: apply body_split in Heq as [-> Hr]; split; try reflexivity.
  all: try (now apply fmt_d_nonempty in Hr).
  all: try (symmetry in Hr; now apply fmt_d_nonempty in Hr).
  all: now apply fmt_d_inj.
Qed.

Lemma buildRange_inj_witness : 100 = 100 /\ 499 = 499.
Proof. exact (buildRange_inj 100 499 100 499 eq_refl). Defined.

(** ** The object a request addresses *)

(** X10. [SizeOf] and [Download] of one URI address the same object: when
    [Download] sends its request, it names the host of the URI as bucket and
    its path as key, and [SizeOf], run from the same cache, sends its request
    for the same bucket and key with the same client. *)
Theorem same_object_addressed (sdk : SDK) (uri : string) (s e : Z)
    (c : gmap string S3API) (svc : S3API) (input : GetObjectInput) :
  EvGetObject svc input ∈ (Download sdk uri s e c).2 ->
  exists parsed,
    url_Parse sdk uri = Ok parsed
    /\ goi_Bucket input = Host parsed
    /\ goi_Key input = UrlPath parsed
    /\ EvHeadObject svc {| hoi_Bucket := Host parsed; hoi_Key := UrlPath parsed |}
       ∈ (SizeOf sdk uri c).2
    /\ (SizeOf sdk uri c).1.2 = (Download sdk uri s e c).1.2.
Proof.
  rewrite Download_unfold, SizeOf_unfold. unfold parseUri.
  destruct (url_Parse sdk uri) as [parsed|e0]; simpl.
  - rewrite getServiceForBucket_unfold.
    destruct (c !! Host parsed) as [svc0|]; simpl.
    + intros Hin. exists parsed.
      repeat (apply elem_of_cons in Hin as [Hin|Hin]; [try discriminate|]).
      * injection Hin as -> ->. simpl. repeat split.
        do 2 apply list_elem_of_further. constructor.
      * now apply elem_of_nil in Hin.
    + destruct (GetBucketRegionWithClient sdk (s3_New defaultRegion) (Host parsed));
        simpl; intros Hin;
        repeat (apply elem_of_cons in Hin as [Hin|Hin]; [try discriminate|]);
        try (now apply elem_of_nil in Hin).
      injection Hin as -> ->. exists parsed. simpl. repeat split.
      do 3 apply list_elem_of_further. constructor.
  - intros Hin. now apply elem_of_nil in Hin.
Qed.

Lemma same_object_addressed_witness :
  exists parsed,
    url_Parse world "s3://archives/big.zip" = Ok parsed
    /\ "archives"%string = Host parsed
    /\ "/big.zip"%string = UrlPath parsed
    /\ EvHeadObject (s3_New "eu-west-1")
         {| hoi_Bucket := Host parsed; hoi_Key := UrlPath parsed |}
       ∈ (SizeOf world "s3://archives/big.zip" NewS3Downloader).2
    /\ (SizeOf world "s3://archives/big.zip" NewS3Downloader).1.2
       = (Download world "s3://archives/big.zip" 0 0 NewS3Downloader).1.2.
Proof.
  apply (same_object_addressed world "s3://archives/big.zip" 0 0 NewS3Downloader
           (s3_New "eu-west-1")
           {| goi_Bucket := "archives"; goi_Key := "/big.zip"; goi_Range := None |}).
  vm_compute. do 3 apply list_elem_of_further. constructor.
Defined.

End RemoteFacts.

(* ===================================================================== *)
(** * Properties of the WebDAV shim *)
(* ===================================================================== *)

Module DavFacts.
Import Dav.

(** C3, as the claim has it, fails. On the example tree, with flags that
    ask for read access: opening the directory [/a] succeeds although
    [Tree.Open] refuses directories, and opening the file [/a/b.txt] leaves
    the cache empty although [Tree.Open] fills it. [OpenFile] does not do
    what handing the path to [Tree.Open] does. *)
Lemma OpenFile_is_not_Tree_Open :
  let fs := NewDavFS exampleTree in
  requestsRead O_RDONLY = true
  /\ isOk (OpenFile fs "/a" O_RDONLY 0 []).1 = true
  /\ isOk (Tree_Open exampleTree "/a" []).1 = false
  /\ isOk (OpenFile_described fs "/a" O_RDONLY 0 []).1 = false
  /\ (OpenFile fs "/a/b.txt" O_RDONLY 0 []).2 = []
  /\ (Tree_Open exampleTree "/a/b.txt" []).2 = ["/a/b.txt"%string]
  /\ (OpenFile_described fs "/a/b.txt" O_RDONLY 0 []).2 = ["/a/b.txt"%string].
Proof. repeat split. Qed.

(** C3, amended. For every path and every flag word and permission,
    [OpenFile] hands the path to [Tree.Stat] and to nothing else: the state of
    the tree and its cache ends as [Stat] leaves it; the call fails exactly
    when [Stat] fails, with the same error; otherwise the handle holds the
    tree of the adapter and the [FileInfo] that [Stat] returned, so the size
    and modification time it carries are those of the path's entry; and
    neither the flags nor the permission change the outcome. *)
Theorem OpenFile_is_Tree_Stat {W : Type} (fs : davFS W) (name : string)
    (flag perm : Z) (w : W) :
  (OpenFile fs name flag perm w).2 = (Tree_Stat (tree fs) name w).2
  /\ (forall err, (OpenFile fs name flag perm w).1 = Err err
                  <-> (Tree_Stat (tree fs) name w).1 = Err err)
  /\ (forall h, (OpenFile fs name flag perm w).1 = Ok h ->
        tf_tree h = tree fs
        /\ (Stat fs name w).1 = Ok (tf_fi h)
        /\ (Tree_Stat (tree fs) name w).1 = Ok (tf_fi h))
  /\ (forall fi, (Tree_Stat (tree fs) name w).1 = Ok fi ->
        (OpenFile fs name flag perm w).1 = Ok {| tf_tree := tree fs; tf_fi := fi |})
  /\ (forall flag' perm',
        OpenFile fs name flag' perm' w = OpenFile fs name flag perm w).
Proof.
  unfold OpenFile, Stat.
  destruct (Tree_Stat (tree fs) name w) as [[fi|e] w1]; simpl.
  - split; [reflexivity|]. split; [intros err; split; discriminate|].
    split; [intros h [= <-]; auto|]. split; [intros ? [= <-]|]; reflexivity.
  - split; [reflexivity|]. split; [intros err; split; intros [= ->]; reflexivity|].
    split; [discriminate|]. split; [discriminate|reflexivity].
Qed.

(** C4, as the claim has it, fails: the error of [Mkdir], [RemoveAll] and
    [Rename] is [os.ErrInvalid], "invalid argument", which is not the
    permission condition. *)
Lemma mutations_do_not_report_permission :
  let fs := NewDavFS exampleTree in
  (Mkdir fs "/a/new" 493 []).1 = Some ErrInvalid
  /\ (RemoveAll fs "/a/b.txt" []).1 = Some ErrInvalid
  /\ (Rename fs "/a/b.txt" "/a/d.txt" []).1 = Some ErrInvalid
  /\ IsPermission ErrInvalid = false
  /\ ErrInvalid <> ErrPermission
  /\ ErrInvalid <> Errno EPERM.
Proof. repeat split; discriminate. Qed.

(** C4, amended. For every name and permission, [Mkdir], [RemoveAll] and
    [Rename] fail with [os.ErrInvalid], and the state of the tree and its
    cache is what it was. *)
Theorem mutations_rejected {W : Type} (fs : davFS W) (name newName : string)
    (perm : Z) (w : W) :
  Mkdir fs name perm w = (Some ErrInvalid, w)
  /\ RemoveAll fs name w = (Some ErrInvalid, w)
  /\ Rename fs name newName w = (Some ErrInvalid, w).
Proof. repeat split. Qed.

(** ** Sequences of requests *)

(** X11. Whatever sequence of [Mkdir], [RemoveAll] and [Rename] requests
    is made, each of them fails with [os.ErrInvalid] and the state of the
    tree and its cache is what it was before the first, so [Stat] and
    [OpenFile] answer for every path as they did before. *)
Theorem mutations_never_change_answers {W : Type} (fs : davFS W)
    (ms : list mutation) (w : W) (name : string) (flag perm : Z) :
  (mutateAll fs ms w).2 = w
  /\ (mutateAll fs ms w).1 = replicate (length ms) (Some ErrInvalid)
  /\ Stat fs name (mutateAll fs ms w).2 = Stat fs name w
  /\ OpenFile fs name flag perm (mutateAll fs ms w).2 = OpenFile fs name flag perm w.
Proof.
  assert (H : mutateAll fs ms w = (replicate (length ms) (Some ErrInvalid), w)).
  { induction ms as [|m ms IH]; [reflexivity|].
    simpl. destruct m; simpl; rewrite IH; reflexivity. }
  rewrite H. simpl. auto.
Qed.

End DavFacts.

(* ===================================================================== *)
(** * Properties of the mount-server command *)
(* ===================================================================== *)

Module MountServerFacts.
Import MountServer.

(** ** Walking through a command *)

Lemma sat_bind {A B} (m : P A) (k : A -> P B) (Q : list event -> outcome B -> Prop) :
  sat m (fun tr o =>
           match o with
           | Continue a => sat (k a) (fun tr' o' => Q (tr ++ tr') o')
           | Exited => Q tr Exited
           | Waiting => Q tr Waiting
           end) ->
  sat (bind m k) Q.
Proof.
  unfold sat, bind. destruct m as [tr [a| |]]; simpl; try tauto.
  destruct (k a) as [tr' o']. simpl. tauto.
Qed.

Lemma sat_pair {A} (tr : list event) (o : outcome A)
    (Q : list event -> outcome A -> Prop) :
  Q tr o -> sat (tr, o) Q.
Proof. exact id. Qed.


(** Follow the command statement by statement, splitting on each answer of
    the environment where the code tests it. *)
Ltac walk :=
  repeat first
    [ apply sat_bind
    | apply sat_pair
    | progress unfold serverLogging, serveReturned, dieWithCallback,
        sendCallback, die, ret, emit
    | match goal with
      | |- sat (match ?x with _ => _ end) _ => destruct x eqn:?
      | |- sat (let _ := _ in _) _ => cbv zeta
      end
    | progress cbn beta iota ].

Ltac eqb_facts :=
  repeat match goal with
         | H : String.eqb _ _ = true |- _ => apply String.eqb_eq in H
         | H : String.eqb _ _ = false |- _ => apply String.eqb_neq in H
         end.

(** Walk, then look at each end of the command with the property [Q]
    unfolded there. *)
Ltac walk_to_leaves :=
  let P := fresh "Property" in
  match goal with |- sat _ ?Q => set (P := Q) end;
  walk; eqb_facts; try congruence;
  subst P; cbn beta; simpl.

(** ** Order of events *)

Lemma eachAfter_seen (isA isB : event -> bool) (seen : bool) (tr : list event) :
  eachAfter isA isB seen tr = true ->
  forall pre ev post, tr = pre ++ ev :: post -> isB ev = true ->
    seen = true \/ exists a, a ∈ pre /\ isA a = true.
Proof.
  revert seen. induction tr as [|x tr IH]; intros seen H pre ev post Heq Hb.
  - destruct pre; discriminate.
  - simpl in H. apply andb_true_iff in H as [Hx Hrest].
    destruct pre as [|y pre]; simpl in Heq; injection Heq as <- ->.
    + rewrite Hb in Hx. now left.
    + destruct (IH _ Hrest pre ev post eq_refl Hb) as [Hs|(a & Ha & HA)].
      * apply orb_true_iff in Hs as [Hs|Hs]; [now left|].
        right. exists x. split; [set_solver|assumption].
      * right. exists a. split; [set_solver|assumption].
Qed.

Lemma eachAfter_before (isA isB : event -> bool) (tr : list event) :
  eachAfter isA isB false tr = true ->
  forall pre ev post, tr = pre ++ ev :: post -> isB ev = true ->
    exists a, a ∈ pre /\ isA a = true.
Proof.
  intros H pre ev post Heq Hb.
  destruct (eachAfter_seen _ _ _ _ H pre ev post Heq Hb) as [?|?];
    [discriminate|assumption].
Qed.



(** ** An unknown protocol *)




(** ** The index build *)




(** ** The callback *)

(** C8, as the claim has it, fails: the cache directory was generated, the
    server starts and reports its address, the interrupt arrives, and the
    directory cannot be removed. Two messages reach the callback address,
    the success and then an error. *)
Lemma two_callback_messages_in_one_run :
  let tr := (Run (exampleEnv None (Some "directory not empty"%string))
                 (exampleFlags "nfs")).1 in
  delivered tr
  = [callbackLine mountServerStatusSuccess "127.0.0.1:40001";
     callbackLine mountServerStatusError
       ("could not clear cache dir at /tmp/cz-mount-cache/0192f0c1: directory not empty"
        +:+ newline)]
  /\ length (delivered tr) = 2%nat
  /\ dialled tr = ["127.0.0.1:5000"; "127.0.0.1:5000"]%string.
Proof. repeat split. Qed.

Lemma callback_sat (env : Env) (f : Flags) :
  sat (Run env f) (fun tr o =>
    sessions tr = true
    /\ Forall (eq (callbackAddr f)) (dialled tr)
    /\ (callbackAddr f = ""%string -> dialled tr = [])
    /\ (delivered tr = []
        \/ (exists msg, delivered tr = [callbackLine mountServerStatusError msg])
        \/ (exists addr, Listen env (listenAddr f) = Ok addr
            /\ (delivered tr = [callbackLine mountServerStatusSuccess addr]
                \/ exists msg,
                     delivered tr = [callbackLine mountServerStatusSuccess addr;
                                     callbackLine mountServerStatusError msg])))).
Proof.
  unfold Run. walk_to_leaves.
  all: rewrite ?String.eqb_refl; simpl.
  all: split; [reflexivity|].
  all: split; [repeat constructor|].
  all: split; [intros; congruence|].
  all: unfold callbackLine; eauto 8.
Qed.

Lemma serveReturned_sat (env : Env) (f : Flags) (a : adapter) (boundAddr : string)
    (err : option string) :
  sat (serveReturned env f a boundAddr err) (fun tr o =>
    sessions tr = true
    /\ (delivered tr = []
        \/ exists msg, delivered tr = [callbackLine mountServerStatusError msg])
    /\ (err <> None -> o = Exited)).
Proof.
  walk_to_leaves.
  all: rewrite ?String.eqb_refl; simpl.
  all: split; [reflexivity|].
  all: unfold callbackLine; split; [eauto|]; intros; congruence.
Qed.

(** C8, amended. Every callback message travels on a connection of its
    own, which is opened, written the one line STATUS=MESSAGE and a newline,
    and closed after a successful write; all connections go to the
    configured address, and none is made when no address is configured. The
    main flow of a run delivers no message, or one error message, or the
    success message with the bound listen address, or that success message
    followed by one error message. The goroutine of the adapter delivers at
    most one error message of its own, when [Serve] returns an error, and
    exits the process. *)
Theorem callback_messages (env : Env) (f : Flags) :
  let tr := (Run env f).1 in
  sessions tr = true
  /\ Forall (eq (callbackAddr f)) (dialled tr)
  /\ (callbackAddr f = ""%string -> dialled tr = [])
  /\ (delivered tr = []
      \/ (exists msg, delivered tr = [callbackLine mountServerStatusError msg])
      \/ (exists addr, Listen env (listenAddr f) = Ok addr
          /\ (delivered tr = [callbackLine mountServerStatusSuccess addr]
              \/ exists msg,
                   delivered tr = [callbackLine mountServerStatusSuccess addr;
                                   callbackLine mountServerStatusError msg])))
  /\ (forall a boundAddr err,
        let tr' := (serveReturned env f a boundAddr err).1 in
        sessions tr' = true
        /\ (delivered tr' = []
            \/ exists msg, delivered tr' = [callbackLine mountServerStatusError msg])
        /\ (err <> None -> (serveReturned env f a boundAddr err).2 = Exited)).
Proof.
  intros tr. destruct (callback_sat env f) as (H1 & H2 & H3 & H4).
  repeat (split; [assumption|]).
  intros a boundAddr err. apply serveReturned_sat.
Qed.

(** ** The course of a run *)

Lemma cachedir_sat (env : Env) (f : Flags) :
  sat (Run env f) (fun tr o =>
    Forall (eq (effectiveCacheDir env f)) (dirsUsed tr)
    /\ (configuredCacheDir env f <> ""%string -> removals tr = [])
    /\ eachAfter isDone isRemoveAll false tr = true
    /\ increasing (omap stage tr) = true).
Proof.
  unfold Run, effectiveCacheDir, configuredCacheDir.
  let P := fresh "Property" in
  match goal with |- sat _ ?Q => set (P := Q) end;
  walk; subst P; cbn beta; simpl.
  all: repeat match goal with
              | H : String.eqb (if _ then _ else _) "" = _ |- _ => rewrite H in *
              end; simpl.
  all: split; [repeat constructor|].
  all: split; [first [reflexivity|intros Hx; exfalso; apply Hx; now apply String.eqb_eq]|].
  all: split; reflexivity.
Qed.

Lemma snoc_inj (a b : string) (ch : ascii) :
  a +:+ String ch "" = b +:+ String ch "" -> a = b.
Proof.
  revert b. induction a as [|x a IH]; intros [|y b] H.
  - reflexivity.
  - injection H as _ H. destruct b; discriminate.
  - injection H as _ H. destruct a; discriminate.
  - injection H as -> H. f_equal. now apply IH.
Qed.

Lemma adapter_sat (env : Env) (f : Flags) :
  sat (Run env f) (fun tr o =>
    (started tr = []
     \/ (protocol f = "nfs"%string /\ started tr = [NFS])
     \/ (protocol f <> "nfs"%string /\ protocol f = "webdav"%string
         /\ started tr = [WebDAV]))
    /\ Forall (fun ev => match ev with
                         | EvGo _ addr => Listen env (listenAddr f) = Ok addr
                         | _ => True
                         end) tr
    /\ (forall addr rest,
          delivered tr = callbackLine mountServerStatusSuccess addr :: rest ->
          started tr <> [] /\ Listen env (listenAddr f) = Ok addr)).
Proof.
  unfold Run. walk_to_leaves.
  all: split; [auto 6|].
  all: split; [repeat constructor; assumption|].
  all: unfold callbackLine; simpl; intros addr rest Hd; try discriminate.
  all: injection Hd as Hd _; apply snoc_inj in Hd; subst.
  all: split; [discriminate|first [assumption|reflexivity]].
Qed.

Lemma outcome_sat (env : Env) (f : Flags) :
  sat (Run env f) (fun tr o =>
    match o with
    | Waiting =>
        interrupted env = false /\ stderrs tr = [] /\ length (started tr) = 1%nat
        /\ removals tr = []
        /\ (callbackAddr f = ""%string -> dialled tr = [])
        /\ exists addr,
             Listen env (listenAddr f) = Ok addr
             /\ last tr = Some (EvStarted addr)
             /\ (callbackAddr f <> ""%string ->
                 delivered tr = [callbackLine mountServerStatusSuccess addr])
    | Continue _ =>
        interrupted env = true /\ stderrs tr = [] /\ length (started tr) = 1%nat
        /\ existsb isDone tr = true
        /\ (configuredCacheDir env f <> ""%string -> last tr = Some EvDone)
        /\ (configuredCacheDir env f = ""%string ->
            last tr = Some (EvRemoveAll (generatedCacheDir env) None))
    | Exited =>
        (exists msg, stderrs tr = [msg]) /\ last tr = Some (EvExit 1)
    end).
Proof.
  unfold Run, configuredCacheDir. walk_to_leaves.
  all: try (split; [eauto|reflexivity]).
  all: repeat (split; [first [assumption|reflexivity|intros; congruence]|]).
  all: try (eexists; repeat (split; [first [eassumption|reflexivity]|]);
            first [intros; congruence|intros _; reflexivity]).
  all: intros; congruence.
Qed.

Lemma increasing_head (l : list nat) (x : nat) :
  increasing (x :: l) = true -> forall j b, l !! j = Some b -> (x < b)%nat.
Proof.
  revert x. induction l as [|y l IH]; intros x H j b Hj; [discriminate|].
  simpl in H. apply andb_true_iff in H as [Hxy H]. apply Nat.ltb_lt in Hxy.
  destruct j as [|j]; simpl in Hj.
  - injection Hj as <-. exact Hxy.
  - specialize (IH y H j b Hj). lia.
Qed.

Lemma increasing_lookup (l : list nat) :
  increasing l = true ->
  forall i j a b, (i < j)%nat -> l !! i = Some a -> l !! j = Some b -> (a < b)%nat.
Proof.
  induction l as [|x l IH]; intros H i j a b Hij Hi Hj; [discriminate|].
  destruct j as [|j]; [lia|]. simpl in Hj.
  destruct i as [|i]; simpl in Hi.
  - injection Hi as <-. eapply increasing_head; eassumption.
  - apply (IH ltac:(destruct l; [reflexivity|simpl in H;
                     apply andb_true_iff in H; tauto]) i j); [lia|assumption..].
Qed.

(** X12. At most one adapter is started in a run, and it is the one of the
    protocol flag: NFS only for [nfs], WebDAV only for [webdav]. It is given
    the address the listener was bound to, and the success message reaches
    the callback address only after the adapter has been started, with that
    same address. *)
Theorem one_adapter_of_the_protocol (env : Env) (f : Flags) :
  let tr := (Run env f).1 in
  (started tr = []
   \/ (protocol f = "nfs"%string /\ started tr = [NFS])
   \/ (protocol f <> "nfs"%string /\ protocol f = "webdav"%string
       /\ started tr = [WebDAV]))
  /\ (forall a addr, EvGo a addr ∈ tr -> Listen env (listenAddr f) = Ok addr)
  /\ (forall addr rest,
        delivered tr = callbackLine mountServerStatusSuccess addr :: rest ->
        started tr <> [] /\ Listen env (listenAddr f) = Ok addr).
Proof.
  intros tr. destruct (adapter_sat env f) as (H1 & H2 & H3). fold tr in H1, H2, H3.
  split; [exact H1|]. split; [|exact H3].
  intros a addr Hin. rewrite Forall_forall in H2. exact (H2 _ Hin).
Qed.

(** X13. The cache directory of a run is the flag if it is set, else the
    environment variable if it is set, else the generated one; every
    directory the run creates, indexes into or removes is that directory. A
    directory that was configured is never removed; the generated one is
    removed only after the wait for the interrupt has ended. *)
Theorem cache_directory (env : Env) (f : Flags) :
  let tr := (Run env f).1 in
  Forall (eq (effectiveCacheDir env f)) (dirsUsed tr)
  /\ (cacheDir f <> ""%string -> effectiveCacheDir env f = cacheDir f)
  /\ (cacheDir f = ""%string -> Getenv_CLOUDZIP_CACHE_DIR env <> ""%string ->
      effectiveCacheDir env f = Getenv_CLOUDZIP_CACHE_DIR env)
  /\ (cacheDir f = ""%string -> Getenv_CLOUDZIP_CACHE_DIR env = ""%string ->
      effectiveCacheDir env f = generatedCacheDir env)
  /\ (configuredCacheDir env f <> ""%string -> removals tr = [])
  /\ (forall pre ev post, tr = pre ++ ev :: post -> isRemoveAll ev = true ->
        exists a, a ∈ pre /\ isDone a = true).
Proof.
  intros tr. destruct (cachedir_sat env f) as (H1 & H2 & H3 & _).
  fold tr in H1, H2, H3.
  split; [exact H1|]. unfold effectiveCacheDir, configuredCacheDir.
  split; [|split; [|split; [|split]]].
  - intros Hne. apply String.eqb_neq in Hne. rewrite Hne.
    now rewrite Hne.
  - intros -> Hne. apply String.eqb_neq in Hne. simpl. now rewrite Hne.
  - intros -> ->. reflexivity.
  - exact H2.
  - now apply eachAfter_before.
Qed.

(** X14. The events of a run follow the life of the server, each stage at
    most once and in this order: the log file is opened, the cache directory
    created, the listener bound, the index built, the adapter started, the
    start logged, the interrupt received, the generated directory removed,
    the process exited; nothing of these happens after the exit. *)
Theorem stages_in_order (env : Env) (f : Flags) (i j a b : nat) :
  (i < j)%nat ->
  omap stage (Run env f).1 !! i = Some a ->
  omap stage (Run env f).1 !! j = Some b ->
  (a < b)%nat.
Proof.
  destruct (cachedir_sat env f) as (_ & _ & _ & H). now apply increasing_lookup.
Qed.

Lemma stages_in_order_witness : (2 < 3)%nat.
Proof.
  exact (stages_in_order (exampleEnv None None) (exampleFlags "nfs") 1 2 2 3
           ltac:(lia) eq_refl eq_refl).
Defined.



(** X16. A run returns only after the interrupt, with one adapter started
    and nothing printed on standard error; its last act is the removal of
    the generated cache directory, which succeeded, or, with a configured
    directory, the end of the wait. *)
Theorem return_is_clean (env : Env) (f : Flags) :
  (Run env f).2 = Continue tt ->
  let tr := (Run env f).1 in
  interrupted env = true /\ stderrs tr = [] /\ length (started tr) = 1%nat
  /\ existsb isDone tr = true
  /\ (configuredCacheDir env f <> ""%string -> last tr = Some EvDone)
  /\ (configuredCacheDir env f = ""%string ->
      last tr = Some (EvRemoveAll (generatedCacheDir env) None)).
Proof.
  intros Ho tr. pose proof (outcome_sat env f) as H. unfold sat in H.
  fold tr in H. rewrite Ho in H. exact H.
Qed.

Lemma return_is_clean_witness :
  last (Run (exampleEnv None None) (exampleFlags "nfs")).1
  = Some (EvRemoveAll "/tmp/cz-mount-cache/0192f0c1" None).
Proof.
  apply (return_is_clean (exampleEnv None None) (exampleFlags "nfs") eq_refl).
  reflexivity.
Defined.


(** X18. [sendCallback] returns no error exactly when the dial, the write and
    the close all succeed. The line reaches the address exactly when the
    dial and the write succeed, so when only the close fails the caller gets
    an error for a message that was delivered; and a connection whose write
    fails is not closed. *)
Theorem sendCallback_outcome (env : Env) (toAddr msg : string)
    (className : mountServerStatus) :
  let line := callbackLine className msg in
  let tr := (sendCallback env toAddr className msg).1 in
  (exists r, (sendCallback env toAddr className msg).2 = Continue r
             /\ (r = None <-> Dial env toAddr = None
                              /\ Fprintf env toAddr line = None
                              /\ Close env toAddr = None))
  /\ delivered tr
     = (if bool_decide (Dial env toAddr = None /\ Fprintf env toAddr line = None)
        then [line] else [])
  /\ (EvClose toAddr ∈ tr <->
      Dial env toAddr = None /\ Fprintf env toAddr line = None)
  /\ dialled tr = [toAddr].
Proof.
  intros line tr. subst line tr. unfold sendCallback, callbackLine.
  destruct (Dial env toAddr) as [e|] eqn:Hd.
  - split; [eexists; split; [reflexivity|]; split;
            [discriminate|intros (? & _); discriminate]|].
    split; [case_bool_decide as Hb; [destruct Hb; discriminate|reflexivity]|].
    split; [|reflexivity].
    split; [intros Hin|intros (? & _); discriminate].
    apply list_elem_of_singleton in Hin. discriminate.
  - cbv zeta. destruct (Fprintf env toAddr _) as [e|] eqn:Hw.
    + split; [eexists; split; [reflexivity|]; split;
              [discriminate|intros (_ & ? & _); discriminate]|].
      split; [case_bool_decide as Hb; [destruct Hb; discriminate|reflexivity]|].
      split; [|reflexivity].
      split; [intros Hin|intros (_ & ?); discriminate].
      apply elem_of_cons in Hin as [Hin|Hin]; [discriminate|].
      apply list_elem_of_singleton in Hin. discriminate.
    + split; [eexists; split; [reflexivity|]; split;
              [auto|intros (_ & _ & ?); assumption]|].
      split; [case_bool_decide as Hb; [reflexivity|destruct Hb; auto]|].
      split; [|reflexivity].
      split; [auto|intros _; do 2 apply list_elem_of_further; constructor].
Qed.

End MountServerFacts.
